(** * Directed graphs, Kahn's algorithm and its validator

    A shallow embedding of [topological_sort.py]: the [DirectedGraph] class,
    [random_dag], [is_topological_sort] and [kahns_algo], followed by the
    properties of these functions.

    Python dictionaries are finite maps ([gmap]), the node set is a finite
    set ([gset]), Python lists are lists (append at the right end), Python
    integers are [Z].  A raised exception is a value of [result]; a method
    that mutates [self] returns the object's state after the call next to
    its result, also when it raises. *)

From stdpp Require Import gmap strings list fin_maps relations.
From Stdlib Require Import ZArith Lia.

Local Open Scope Z_scope.

(** ** Exceptions *)

(** [Exception msg] is Python's [Exception(msg)]; [KeyError] is raised by a
    subscript [d[k]] on a missing key, [AttributeError] by a method call on
    the [None] that [d.get(k)] returns for a missing key. *)
Inductive exn : Type :=
  | Exception (msg : string)
  | KeyError
  | AttributeError.

Inductive result (A : Type) : Type :=
  | Ok (a : A)
  | Raise (e : exn).
Arguments Ok {A} a.
Arguments Raise {A} e.

#[export] Instance result_ret : MRet result := @Ok.
#[export] Instance result_bind : MBind result := λ A B f r,
  match r with
  | Ok a => f a
  | Raise e => Raise e
  end.

(** [for x in xs: body], where the body updates the local state [s] and may
    raise, which leaves the loop. *)
Fixpoint for_in {A S : Type} (xs : list A) (body : A → S → result S) (s : S)
  : result S :=
  match xs with
  | [] => Ok s
  | x :: xs' => s' ← body x s; for_in xs' body s'
  end.

(** [enumerate(l)], counting from [i]. *)
Fixpoint enumerate_from {A : Type} (i : nat) (l : list A) : list (nat * A) :=
  match l with
  | [] => []
  | x :: l' => (i, x) :: enumerate_from (S i) l'
  end.

(** [l.pop()]: the last element and the list without it; [None] on [[]]. *)
Definition pop {A : Type} (l : list A) : option (list A * A) :=
  match reverse l with
  | [] => None
  | x :: r => Some (reverse r, x)
  end.

Definition duplicate_edge_msg : string := "Graph already contains edge.".
Definition cycle_msg : string := "Graph contains a cycle".

Section graph.
Context `{Countable K}.

(** ** class DirectedGraph *)

Record DirectedGraph : Type := mkGraph {
  edges : list (K * K);
  successors : gmap K (list K);
  predecessors : gmap K (list K);
  nodes : gset K
}.

(** [DirectedGraph()] *)
Definition empty_graph : DirectedGraph :=
  {| edges := []; successors := ∅; predecessors := ∅; nodes := ∅ |}.

(** [graph.add_edge(u, v)]: the result of the call and the state of the
    graph after it. *)
Definition add_edge (u v : K) (g : DirectedGraph) : result () * DirectedGraph :=
  let succ1 :=
    match successors g !! u with
    | None => <[u := []]> (successors g)
    | Some _ => successors g
    end in
  let pred1 :=
    match predecessors g !! v with
    | None => <[v := []]> (predecessors g)
    | Some _ => predecessors g
    end in
  let g1 := {| edges := edges g; successors := succ1;
               predecessors := pred1; nodes := nodes g |} in
  match succ1 !! u with
  | None => (Raise KeyError, g1)
  | Some su =>
    if decide (v ∈ su) then (Raise (Exception duplicate_edge_msg), g1)
    else
      match pred1 !! v with
      | None => (Raise AttributeError, g1)
      | Some pv =>
        (Ok (),
         {| edges := edges g ++ [(u, v)];
            successors := <[u := su ++ [v]]> succ1;
            predecessors := <[v := pv ++ [u]]> pred1;
            nodes := {[v]} ∪ ({[u]} ∪ nodes g) |})
      end
  end.

Definition get_successors (u : K) (g : DirectedGraph) : list K :=
  default [] (successors g !! u).

Definition get_predecessors (u : K) (g : DirectedGraph) : list K :=
  default [] (predecessors g !! u).

Definition get_nodes (g : DirectedGraph) : gset K := nodes g.

Definition get_edges (g : DirectedGraph) : list (K * K) := edges g.

(** ** is_topological_sort *)

(** [{v: i for (i, v) in enumerate(sequence)}]: a later pair overwrites
    an earlier one with the same key. *)
Definition index_of (sequence : list K) : gmap K nat :=
  foldl (λ m iv, <[iv.2 := iv.1]> m) ∅ (enumerate_from 0 sequence).

(** [all(index[u] < index[v] for (u, v) in es)]: stops at the first pair
    that gives [False]; a subscript on a missing key raises. *)
Fixpoint all_edges_increasing (index : gmap K nat) (es : list (K * K))
  : result bool :=
  match es with
  | [] => Ok true
  | (u, v) :: es' =>
    match index !! u with
    | None => Raise KeyError
    | Some i =>
      match index !! v with
      | None => Raise KeyError
      | Some j =>
        if (i <? j)%nat then all_edges_increasing index es' else Ok false
      end
    end
  end.

Definition is_topological_sort (g : DirectedGraph) (sequence : list K)
  : result bool :=
  if decide (list_to_set sequence ≠ get_nodes g) then Ok false
  else all_edges_increasing (index_of sequence) (get_edges g).

(** ** kahns_algo *)

(** The local variables of [kahns_algo]. *)
Record kahn_state : Type := mkKahn {
  degrees : gmap K Z;
  zero_nodes : list K;
  top_sort : list K
}.

(** The body of the first loop, [for u in graph.get_nodes()]. *)
Definition init_degree (g : DirectedGraph) (st : kahn_state) (u : K)
  : kahn_state :=
  let pred := get_predecessors u g in
  {| degrees := <[u := Z.of_nat (length pred)]> (degrees st);
     zero_nodes :=
       if decide (length pred = 0%nat) then zero_nodes st ++ [u]
       else zero_nodes st;
     top_sort := top_sort st |}.

(** The first loop; [ns] is the order in which the iteration over the
    node set yields its elements. *)
Definition init_degrees (g : DirectedGraph) (ns : list K) : kahn_state :=
  foldl (init_degree g) {| degrees := ∅; zero_nodes := []; top_sort := [] |} ns.

(** The body of [for v in graph.get_successors(u)]. *)
Definition decrement (v : K) (st : kahn_state) : result kahn_state :=
  match degrees st !! v with
  | None => Raise KeyError
  | Some d =>
    let degrees' := <[v := d - 1]> (degrees st) in
    Ok {| degrees := degrees';
          zero_nodes :=
            if decide (d - 1 = 0) then zero_nodes st ++ [v]
            else zero_nodes st;
          top_sort := top_sort st |}
  end.

(** The body of the [while] loop once [u] has been popped and [zs] is
    what remains of the worklist. *)
Definition while_body (g : DirectedGraph) (u : K) (zs : list K)
    (st : kahn_state) : result kahn_state :=
  for_in (get_successors u g) decrement
    {| degrees := degrees st; zero_nodes := zs;
       top_sort := top_sort st ++ [u] |}.

(** [while len(zero_nodes) > 0]; [None] when [fuel] iterations were not
    enough to leave the loop. *)
Fixpoint while_loop (fuel : nat) (g : DirectedGraph) (st : kahn_state)
  : option (result kahn_state) :=
  match fuel with
  | O => None
  | S fuel' =>
    match pop (zero_nodes st) with
    | None => Some (Ok st)
    | Some (zs, u) =>
      match while_body g u zs st with
      | Raise e => Some (Raise e)
      | Ok st' => while_loop fuel' g st'
      end
    end
  end.

(** The check after the loop. *)
Definition check_complete (g : DirectedGraph) (st : kahn_state)
  : result (list K) :=
  if decide (length (top_sort st) < size (get_nodes g))%nat
  then Raise (Exception cycle_msg)
  else Ok (top_sort st).

Definition kahns_algo (fuel : nat) (ns : list K) (g : DirectedGraph)
  : option (result (list K)) :=
  r ← while_loop fuel g (init_degrees g ns);
  Some (st ← r; check_complete g st).

Definition topological_sort (fuel : nat) (ns : list K) (g : DirectedGraph)
  : option (result (list K)) :=
  kahns_algo fuel ns g.

End graph.

Arguments DirectedGraph K {_ _}.
Arguments kahn_state K {_ _}.

(** ** random_dag *)

(** [range(lo, hi)] *)
Definition range (lo hi : Z) : list Z := seqZ lo (hi - lo).

Section random_dag.
(** Floating-point numbers enter only through the comparison
    [random() > edge_threshold]: the type of floats, that comparison and
    the values [random()] returns, call after call, are left abstract. *)
Variable float : Type.
Variable float_gt : float → float → bool.
Variable draws : nat → float.

(** The body of the inner loop; the state is the number of calls of
    [random()] made so far and the graph [dag]. *)
Definition maybe_add_edge (edge_threshold : float) (u v : Z)
    (st : nat * DirectedGraph Z) : result (nat * DirectedGraph Z) :=
  let '(k, dag) := st in
  if float_gt (draws k) edge_threshold then
    match add_edge u v dag with
    | (Ok _, dag') => Ok (S k, dag')
    | (Raise e, _) => Raise e
    end
  else Ok (S k, dag).

Definition random_dag (n_nodes : Z) (edge_threshold : float)
  : result (DirectedGraph Z) :=
  st ← for_in (range 0 n_nodes)
         (λ u, for_in (range (u + 1) n_nodes) (maybe_add_edge edge_threshold u))
         (0%nat, empty_graph);
  Ok st.2.
End random_dag.

(** ** Specification vocabulary *)

Section graph_spec.
Context `{Countable K}.
Implicit Types (g : DirectedGraph K) (u v x : K) (l : list K).

(** The states a [DirectedGraph] object can be in: the constructor's, and
    the state after any call of [add_edge], whether it returned or
    raised. *)
Inductive reachable : DirectedGraph K → Prop :=
  | reachable_empty : reachable empty_graph
  | reachable_add_edge u v g :
      reachable g → reachable (add_edge u v g).2.

(** The state after a series of [add_edge] calls on a new graph. *)
Definition build (es : list (K * K)) : DirectedGraph K :=
  foldl (λ g e, (add_edge e.1 e.2 g).2) empty_graph es.

(** How often [x] occurs in [l]. *)
Definition occurrences x l : nat := length (filter (x =.) l).

(** The invariants of the data model, as the specification words them. *)
Definition adjacency_invariant g : Prop :=
  ∀ u v, (u, v) ∈ edges g →
    (∃ su, successors g !! u = Some su ∧ occurrences v su = 1%nat) ∧
    (∃ pv, predecessors g !! v = Some pv ∧ occurrences u pv = 1%nat).

Definition nodes_invariant g : Prop :=
  ∀ x, x ∈ nodes g ↔ ∃ y, (x, y) ∈ edges g ∨ (y, x) ∈ edges g.

(** The representation invariant used in the proofs: the adjacency maps
    hold exactly the edges, without repetition. *)
Record wf g : Prop := mk_wf {
  wf_succ u v : v ∈ get_successors u g ↔ (u, v) ∈ edges g;
  wf_pred u v : u ∈ get_predecessors v g ↔ (u, v) ∈ edges g;
  wf_succ_nodup u : NoDup (get_successors u g);
  wf_pred_nodup v : NoDup (get_predecessors v g);
  wf_nodes : nodes_invariant g;
  wf_edges_nodup : NoDup (edges g)
}.

(** The edge relation of a graph, its paths and cycles. *)
Definition edge g : relation K := λ u v, (u, v) ∈ edges g.
Definition has_cycle g : Prop := ∃ u, tc (edge g) u u.
Definition acyclic g : Prop := ∀ u, ¬ tc (edge g) u u.

(** [i] is the position of the last occurrence of [x] in [l]. *)
Definition last_position l x (i : nat) : Prop :=
  l !! i = Some x ∧ ∀ j, l !! j = Some x → (j ≤ i)%nat.

(** [u] occurs at a position strictly before one of [v]. *)
Definition occurs_before l u v : Prop :=
  ∃ i j : nat, l !! i = Some u ∧ l !! j = Some v ∧ (i < j)%nat.

(** Every edge goes from an earlier to a later element of [l]. *)
Definition respects_edges g l : Prop :=
  ∀ u v, (u, v) ∈ edges g → occurs_before l u v.

(** The states of [kahns_algo] at the head of its [while] loop. *)
Inductive loop_state g (ns : list K) : kahn_state K → Prop :=
  | loop_state_init : loop_state g ns (init_degrees g ns)
  | loop_state_step st zs u st' :
      loop_state g ns st →
      pop (zero_nodes st) = Some (zs, u) →
      while_body g u zs st = Ok st' →
      loop_state g ns st'.

(** What the [while] loop keeps on any graph object.

    A node enters the worklist when its tracked degree is [0], the
    degrees only go down, and a node leaves the worklist for the output:
    so the output followed by the worklist never repeats a node. *)
Record basic_inv (N : gset K) st : Prop := mk_basic_inv {
  bi_dom : dom (degrees st) = N;
  bi_nodup : NoDup (top_sort st ++ zero_nodes st);
  bi_nonpos v :
    v ∈ top_sort st ++ zero_nodes st →
    ∃ d, degrees st !! v = Some d ∧ d ≤ 0
}.
(** The predecessors of [v] that are not yet in the output [ts]. *)
Definition pending g (ts : list K) v : list K :=
  filter (λ u, u ∉ ts) (get_predecessors v g).

(** What the [while] loop keeps on a well-formed graph: the tracked degree
    of a node counts its pending predecessors, the worklist holds exactly
    the nodes outside the output without pending predecessor, and a node
    in the output comes after all its predecessors. *)
Record kahn_inv g (st : kahn_state K) : Prop := mk_kahn_inv {
  ki_dom : dom (degrees st) = nodes g;
  ki_nodup : NoDup (top_sort st ++ zero_nodes st);
  ki_degrees v :
    v ∈ nodes g →
    degrees st !! v = Some (Z.of_nat (length (pending g (top_sort st) v)));
  ki_zero v :
    v ∈ zero_nodes st ↔
    v ∈ nodes g ∧ (v ∉ top_sort st) ∧ pending g (top_sort st) v = [];
  ki_sorted v : v ∈ top_sort st → v ∈ nodes g;
  ki_order u v :
    (u, v) ∈ edges g → v ∈ top_sort st → occurs_before (top_sort st) u v
}.

(** What the loop over the successors of [u] keeps, [todo] being the
    successors still to visit and [ts] the output before [u] joined it. *)
Record inner_inv g (ts : list K) u (todo : list K) (s : kahn_state K)
  : Prop := mk_inner_inv {
  ii_top_sort : top_sort s = ts ++ [u];
  ii_dom : dom (degrees s) = nodes g;
  ii_nodup : NoDup ((ts ++ [u]) ++ zero_nodes s);
  ii_degrees v :
    v ∈ nodes g →
    degrees s !! v =
    Some (Z.of_nat (length (pending g (if decide (v ∈ todo) then ts
                                       else ts ++ [u]) v)));
  ii_zero v :
    v ∈ zero_nodes s ↔
    v ∈ nodes g ∧ (v ∉ ts ++ [u]) ∧ (v ∉ todo) ∧ pending g (ts ++ [u]) v = []
}.
(** The last occurrence of [u] in [l] is strictly before that of [v]. *)
Definition last_before l u v : Prop :=
  ∃ i j : nat, last_position l u i ∧ last_position l v j ∧ (i < j)%nat.
End graph_spec.

(** ** The main loop and the pairs [random_dag] visits *)

(** [try: graph.add_edge(u, v)] with [except: pass]: the state of the graph
    after the call, whatever its outcome. *)
Definition try_add_edge `{Countable K} (u v : K) (g : DirectedGraph K)
  : DirectedGraph K :=
  snd (add_edge u v g).

(** The part of the main loop that closes a cycle in [graph]: the loop
    [for i in range(start, end)] over [add_edge(i, i+1)] and the call
    [add_edge(end, start)], each inside a [try] whose handler ignores every
    exception. *)
Definition inject_cycle (start end_ : Z) (graph : DirectedGraph Z)
  : DirectedGraph Z :=
  try_add_edge end_ start
    (foldl (λ g i, try_add_edge i (i + 1) g) graph (range start end_)).

(** The pairs [(u, v)] for which [random_dag] calls [random()], in the
    order of the two nested loops. *)
Definition visited_pairs (n_nodes : Z) : list (Z * Z) :=
  u ← range 0 n_nodes; (λ v, (u, v)) <$> range (u + 1) n_nodes.

(** The pairs of [ps] whose draw exceeds the threshold, the first pair
    using the draw number [k]. *)
Fixpoint taken_pairs {float : Type} (float_gt : float → float → bool)
    (draws : nat → float) (edge_threshold : float) (k : nat)
    (ps : list (Z * Z)) : list (Z * Z) :=
  match ps with
  | [] => []
  | p :: ps' =>
    if float_gt (draws k) edge_threshold
    then p :: taken_pairs float_gt draws edge_threshold (S k) ps'
    else taken_pairs float_gt draws edge_threshold (S k) ps'
  end.

(** ** Example graphs *)

(** Edges [0 → 1 → 2]. *)
Definition chain_graph : DirectedGraph Z := build [(0, 1); (1, 2)].

(** The two-cycle [0 → 1 → 0]. *)
Definition two_cycle_graph : DirectedGraph Z := build [(0, 1); (1, 0)].

(** A single self-loop on node [5]. *)
Definition self_loop_graph : DirectedGraph Z := build [(5, 5)].

(** The single edge [0 → 1]. *)
Definition one_edge_graph : DirectedGraph Z := build [(0, 1)].

(** The two separate edges [0 → 2] and [1 → 3]. *)
Definition two_chains_graph : DirectedGraph Z := build [(0, 2); (1, 3)].

(** ** The graph class *)

Section graph_facts.
Context `{Countable K}.
Implicit Types (g : DirectedGraph K) (u v x : K) (l : list K).

Lemma result_bind_Ok {A B} (a : A) (f : A → result B) : Ok a ≫= f = f a.
Proof. done. Qed.

Lemma graph_eta g :
  {| edges := edges g; successors := successors g;
     predecessors := predecessors g; nodes := nodes g |} = g.
Proof. by destruct g. Qed.

Lemma occurrences_notin x l : x ∉ l → occurrences x l = 0%nat.
Proof.
  unfold occurrences. induction l as [|y l IH]; [done|].
  rewrite not_elem_of_cons. intros [Hne Hnot].
  rewrite filter_cons_False by done. by apply IH.
Qed.

Lemma occurrences_nodup x l : NoDup l → x ∈ l → occurrences x l = 1%nat.
Proof.
  unfold occurrences. induction 1 as [|y l Hy Hnd IH]; [by intros ?%elem_of_nil|].
  intros [->|Hin]%elem_of_cons.
  - rewrite filter_cons_True by done. simpl. f_equal.
    by apply occurrences_notin.
  - rewrite filter_cons_False; [by apply IH|]. intros ->. done.
Qed.

Lemma elem_of_default_lookup (m : gmap K (list K)) k x :
  x ∈ default [] (m !! k) → ∃ l, m !! k = Some l ∧ x ∈ l.
Proof.
  destruct (m !! k) as [l|]; simpl; [eauto|]. by intros ?%elem_of_nil.
Qed.

(** *** The two outcomes of [add_edge] *)

Lemma add_edge_duplicate u v g :
  v ∈ get_successors u g →
  add_edge u v g =
    (Raise (Exception duplicate_edge_msg),
     {| edges := edges g; successors := successors g;
        predecessors :=
          match predecessors g !! v with
          | None => <[v := []]> (predecessors g)
          | Some _ => predecessors g
          end;
        nodes := nodes g |}).
Proof.
  unfold get_successors, add_edge. intros Hin.
  destruct (successors g !! u) as [su|] eqn:Hsu; simpl in Hin;
    [|by apply elem_of_nil in Hin].
  rewrite Hsu. by rewrite decide_True.
Qed.

Lemma add_edge_fresh u v g :
  v ∉ get_successors u g →
  add_edge u v g =
    (Ok (),
     {| edges := edges g ++ [(u, v)];
        successors := <[u := get_successors u g ++ [v]]> (successors g);
        predecessors := <[v := get_predecessors v g ++ [u]]> (predecessors g);
        nodes := {[v]} ∪ ({[u]} ∪ nodes g) |}).
Proof.
  unfold get_successors, get_predecessors, add_edge. intros Hnot.
  destruct (successors g !! u) as [su|] eqn:Hsu;
    destruct (predecessors g !! v) as [pv|] eqn:Hpv; simpl in *;
    rewrite ?Hsu, ?Hpv, ?lookup_insert_eq, ?insert_insert_eq;
    by rewrite decide_False.
Qed.

Lemma add_edge_cases u v g :
  (v ∈ get_successors u g ∧
   fst (add_edge u v g) = Raise (Exception duplicate_edge_msg)) ∨
  ((v ∉ get_successors u g) ∧ fst (add_edge u v g) = Ok ()).
Proof.
  destruct (decide (v ∈ get_successors u g)) as [Hin|Hnot].
  - left. by rewrite add_edge_duplicate.
  - right. by rewrite add_edge_fresh.
Qed.

(** *** The representation invariant *)

Lemma wf_empty : wf (@empty_graph K _ _).
Proof.
  split; unfold get_successors, get_predecessors, nodes_invariant; simpl.
  - intros u v. rewrite lookup_empty. simpl. by rewrite !elem_of_nil.
  - intros u v. rewrite lookup_empty. simpl. by rewrite !elem_of_nil.
  - intros u. rewrite lookup_empty. constructor.
  - intros u. rewrite lookup_empty. constructor.
  - intros x. split; [by intros ?%not_elem_of_empty|].
    by intros [y [?%elem_of_nil|?%elem_of_nil]].
  - constructor.
Qed.

Lemma wf_add_edge_duplicate u v g :
  wf g → v ∈ get_successors u g → (add_edge u v g).2 = g.
Proof.
  intros Hwf Hin. rewrite add_edge_duplicate by done. simpl.
  assert (u ∈ get_predecessors v g) as Hp.
  { apply Hwf. by apply Hwf. }
  apply elem_of_default_lookup in Hp as (pv & -> & _). apply graph_eta.
Qed.

Lemma default_lookup_insert (m : gmap K (list K)) k k' l :
  default [] (<[k := l]> m !! k') =
  if decide (k' = k) then l else default [] (m !! k').
Proof.
  case_decide as Hk; [subst; by rewrite lookup_insert_eq|].
  by rewrite lookup_insert_ne.
Qed.

Lemma wf_add_edge_fresh u v g :
  wf g → v ∉ get_successors u g → wf (add_edge u v g).2.
Proof.
  intros Hwf Hnot. rewrite add_edge_fresh by done. simpl.
  assert ((u, v) ∉ edges g) as Hne by (by rewrite <-(wf_succ g Hwf)).
  assert (u ∉ get_predecessors v g) as Hnp by (by rewrite (wf_pred g Hwf)).
  split; unfold nodes_invariant; simpl.
  - intros a b. rewrite elem_of_app, list_elem_of_singleton.
    unfold get_successors at 1. simpl. rewrite default_lookup_insert.
    case_decide as Ha; [subst a|].
    + rewrite elem_of_app, list_elem_of_singleton, (wf_succ g Hwf).
      naive_solver.
    + change (default [] (successors g !! a)) with (get_successors a g).
      rewrite (wf_succ g Hwf). naive_solver.
  - intros a b. rewrite elem_of_app, list_elem_of_singleton.
    unfold get_predecessors at 1. simpl. rewrite default_lookup_insert.
    case_decide as Hb; [subst b|].
    + rewrite elem_of_app, list_elem_of_singleton, (wf_pred g Hwf).
      naive_solver.
    + change (default [] (predecessors g !! b)) with (get_predecessors b g).
      rewrite (wf_pred g Hwf). naive_solver.
  - intros a. unfold get_successors at 1. simpl.
    rewrite default_lookup_insert. case_decide as Ha; [subst a|by apply Hwf].
    apply NoDup_app. split_and!; [by apply Hwf| |apply NoDup_singleton].
    intros b Hb ->%list_elem_of_singleton. done.
  - intros b. unfold get_predecessors at 1. simpl.
    rewrite default_lookup_insert. case_decide as Hb; [subst b|by apply Hwf].
    apply NoDup_app. split_and!; [by apply Hwf| |apply NoDup_singleton].
    intros a Ha ->%list_elem_of_singleton. done.
  - intros x. rewrite !elem_of_union, !elem_of_singleton, (wf_nodes g Hwf x).
    setoid_rewrite elem_of_app. setoid_rewrite list_elem_of_singleton.
    naive_solver.
  - apply NoDup_app. split_and!; [by apply Hwf| |apply NoDup_singleton].
    intros e He ->%list_elem_of_singleton. done.
Qed.

Lemma wf_add_edge u v g : wf g → wf (add_edge u v g).2.
Proof.
  intros Hwf. destruct (decide (v ∈ get_successors u g)).
  - by rewrite wf_add_edge_duplicate.
  - by apply wf_add_edge_fresh.
Qed.

Lemma reachable_wf g : reachable g → wf g.
Proof. induction 1; [apply wf_empty|by apply wf_add_edge]. Qed.

Lemma reachable_build (es : list (K * K)) : reachable (build es).
Proof.
  unfold build. induction es as [|e es IH] using rev_ind; [constructor|].
  rewrite foldl_app. simpl. by constructor.
Qed.

Lemma wf_adjacency g : wf g → adjacency_invariant g.
Proof.
  intros Hwf u v Huv. split.
  - pose proof (proj2 (wf_succ g Hwf u v) Huv) as Hin.
    pose proof (wf_succ_nodup g Hwf u) as Hnd. unfold get_successors in *.
    destruct (successors g !! u) as [su|]; simpl in *;
      [|by apply elem_of_nil in Hin].
    exists su. split; [done|]. by apply occurrences_nodup.
  - pose proof (proj2 (wf_pred g Hwf u v) Huv) as Hin.
    pose proof (wf_pred_nodup g Hwf v) as Hnd. unfold get_predecessors in *.
    destruct (predecessors g !! v) as [pv|]; simpl in *;
      [|by apply elem_of_nil in Hin].
    exists pv. split; [done|]. by apply occurrences_nodup.
Qed.
End graph_facts.

(** ** The validator *)

Section validator_facts.
Context `{Countable K}.
Implicit Types (g : DirectedGraph K) (u v x : K) (l : list K).

Lemma last_position_unique l x i j :
  last_position l x i → last_position l x j → i = j.
Proof. intros [Hi Hmi] [Hj Hmj]. apply Hmi in Hj. apply Hmj in Hi. lia. Qed.

Lemma last_position_nodup l x i :
  NoDup l → last_position l x i ↔ l !! i = Some x.
Proof.
  intros Hnd. split; [by intros []|]. intros Hi. split; [done|].
  intros j Hj. by rewrite (NoDup_lookup l i j x Hnd Hi Hj).
Qed.

(** The dictionary built from [enumerate]: a key absent from the
    sequence keeps what the dictionary held, a key present is mapped to
    the position of its last occurrence. *)
Lemma index_fold_notin l (i : nat) (m : gmap K nat) u :
  u ∉ l →
  foldl (λ m iv, <[iv.2 := iv.1]> m) m (enumerate_from i l) !! u = m !! u.
Proof.
  revert i m. induction l as [|y l IH]; intros i m; [done|].
  rewrite not_elem_of_cons. intros [Hne Hnot]. simpl.
  rewrite IH by done. by rewrite lookup_insert_ne.
Qed.

Lemma index_fold_in l (i : nat) (m : gmap K nat) u :
  u ∈ l →
  ∃ j, foldl (λ m iv, <[iv.2 := iv.1]> m) m (enumerate_from i l) !! u
         = Some (i + j)%nat
       ∧ last_position l u j.
Proof.
  revert i m. induction l as [|y l IH]; intros i m; [by intros ?%elem_of_nil|].
  intros Hin. simpl. destruct (decide (u ∈ l)) as [Hl|Hl].
  - destruct (IH (S i) (<[y := i]> m) Hl) as (j & Hj & Hpos & Hmax).
    exists (S j). split; [rewrite Hj; f_equal; lia|]. split; [done|].
    intros [|k] Hk; [lia|]. apply Hmax in Hk. lia.
  - apply elem_of_cons in Hin as [->|]; [|done].
    exists 0%nat. rewrite index_fold_notin by done.
    rewrite lookup_insert_eq. split; [f_equal; lia|]. split; [done|].
    intros [|k] Hk; [lia|]. simpl in Hk. apply list_elem_of_lookup_2 in Hk.
    done.
Qed.

Lemma index_of_Some l u i : index_of l !! u = Some i ↔ last_position l u i.
Proof.
  unfold index_of. destruct (decide (u ∈ l)) as [Hin|Hnot].
  - destruct (index_fold_in l 0 ∅ u Hin) as (j & -> & Hj). simpl. split.
    + by intros [= <-].
    + intros Hi. f_equal. eapply last_position_unique; eauto.
  - rewrite index_fold_notin, lookup_empty by done. split; [done|].
    intros [Hi _]. by apply list_elem_of_lookup_2 in Hi.
Qed.

Lemma index_of_is_Some l u : is_Some (index_of l !! u) ↔ u ∈ l.
Proof.
  split.
  - intros [i [Hi _]%index_of_Some]. by eapply list_elem_of_lookup_2.
  - intros Hin. destruct (index_fold_in l 0 ∅ u Hin) as (j & Hj & _).
    by eexists.
Qed.

Lemma all_edges_increasing_spec (index : gmap K nat) (es : list (K * K)) :
  (∀ u v, (u, v) ∈ es → is_Some (index !! u) ∧ is_Some (index !! v)) →
  ∃ b, all_edges_increasing index es = Ok b ∧
       (b = true ↔
        ∀ u v, (u, v) ∈ es →
          ∃ i j, index !! u = Some i ∧ index !! v = Some j ∧ (i < j)%nat).
Proof.
  induction es as [|[u v] es IH]; intros Hdom; simpl.
  - exists true. split; [done|]. split; [|done].
    by intros _ u v ?%elem_of_nil.
  - destruct (Hdom u v) as [[i Hi] [j Hj]]; [left|]. rewrite Hi, Hj.
    destruct (Nat.ltb_spec i j) as [Hlt|Hge].
    + destruct IH as (b & -> & Hb).
      { intros u' v' Hin. apply Hdom. by right. }
      exists b. split; [done|]. rewrite Hb. split.
      * intros Hall u' v' [[= -> ->]|Hin]%elem_of_cons; eauto.
      * intros Hall u' v' Hin. apply Hall. by right.
    + exists false. split; [done|]. split; [done|]. intros Hall.
      destruct (Hall u v) as (i' & j' & Hi' & Hj' & Hlt); [left|].
      simplify_eq. lia.
Qed.

(** On a graph whose node set holds the endpoints of its edges the
    validator returns a boolean, and that boolean is as specified. *)
Lemma is_topological_sort_wf g l :
  wf g →
  ∃ b, is_topological_sort g l = Ok b ∧
       (b = true ↔
        list_to_set l = nodes g ∧
        ∀ u v, (u, v) ∈ edges g →
          ∃ i j, last_position l u i ∧ last_position l v j ∧ (i < j)%nat).
Proof.
  intros Hwf. unfold is_topological_sort, get_nodes, get_edges.
  case_decide as Hset.
  - exists false. split; [done|]. split; [done|]. by intros [? _].
  - destruct (all_edges_increasing_spec (index_of l) (edges g)) as (b & Hb & Hiff).
    { intros u v Huv. rewrite !index_of_is_Some.
      rewrite <-!(elem_of_list_to_set (C := gset K)), Hset.
      split; apply (wf_nodes g Hwf); eauto. }
    exists b. split; [done|]. rewrite Hiff. split.
    + intros Hall. split; [done|]. intros u v Huv.
      destruct (Hall u v Huv) as (i & j & Hi & Hj & Hlt).
      exists i, j. by rewrite <-!index_of_Some.
    + intros [_ Hall] u v Huv.
      destruct (Hall u v Huv) as (i & j & Hi & Hj & Hlt).
      exists i, j. by rewrite !index_of_Some.
Qed.

Lemma is_topological_sort_nodup g l :
  wf g → NoDup l →
  is_topological_sort g l = Ok true ↔
  list_to_set l = nodes g ∧ respects_edges g l.
Proof.
  intros Hwf Hnd. destruct (is_topological_sort_wf g l Hwf) as (b & -> & Hb).
  transitivity (b = true); [naive_solver|]. rewrite Hb.
  unfold respects_edges, occurs_before.
  by setoid_rewrite (last_position_nodup l _ _ Hnd).
Qed.
End validator_facts.

(** ** Kahn's algorithm on any graph object: termination *)

Section kahn_basic.
Context `{Countable K}.
Implicit Types (g : DirectedGraph K) (u v x : K) (l ns : list K)
  (st : kahn_state K).

Lemma pop_None {A} (l : list A) : pop l = None ↔ l = [].
Proof.
  unfold pop. rewrite <-(reverse_involutive l) at 2.
  destruct (reverse l) as [|x r]; [done|].
  rewrite reverse_cons. split; [done|]. by intros [_ ?]%app_nil.
Qed.

Lemma pop_Some {A} (l zs : list A) (a : A) : pop l = Some (zs, a) ↔ l = zs ++ [a].
Proof.
  unfold pop. rewrite <-(reverse_involutive l) at 2.
  destruct (reverse l) as [|x r].
  - simpl. split; [done|]. intros Hnil. symmetry in Hnil. by apply app_nil in Hnil as [_ ?].
  - rewrite reverse_cons. split; [by intros [= <- <-]|].
    by intros [-> ->]%app_inj_tail.
Qed.

Lemma for_in_preserves {A S} (P : S → Prop) (body : A → S → result S)
    (xs : list A) (s s' : S) :
  (∀ a s1 s2, P s1 → body a s1 = Ok s2 → P s2) →
  P s → for_in xs body s = Ok s' → P s'.
Proof.
  intros Hbody. revert s. induction xs as [|a xs IH]; intros s Hs; simpl.
  - by intros [= <-].
  - destruct (body a s) as [s1|e] eqn:Ha; [|done]. simpl.
    apply IH. by eapply Hbody.
Qed.

(** *** The first loop *)

Lemma init_degrees_snoc g ns u :
  init_degrees g (ns ++ [u]) = init_degree g (init_degrees g ns) u.
Proof. unfold init_degrees. by rewrite foldl_app. Qed.

Lemma init_top_sort g ns : top_sort (init_degrees g ns) = [].
Proof.
  induction ns as [|u ns IH] using rev_ind; [done|].
  by rewrite init_degrees_snoc.
Qed.

Lemma init_zero_nodes g ns :
  zero_nodes (init_degrees g ns) =
  filter (λ u, length (get_predecessors u g) = 0%nat) ns.
Proof.
  induction ns as [|u ns IH] using rev_ind; [done|].
  rewrite init_degrees_snoc, filter_app. simpl. rewrite IH.
  case_decide as Hz;
    [rewrite filter_cons_True by done|rewrite filter_cons_False by done];
    rewrite filter_nil; [done|by rewrite app_nil_r].
Qed.

Lemma init_degrees_lookup g ns u :
  degrees (init_degrees g ns) !! u =
  if decide (u ∈ ns) then Some (Z.of_nat (length (get_predecessors u g)))
  else None.
Proof.
  induction ns as [|w ns IH] using rev_ind.
  - rewrite decide_False; [done|]. by intros ?%elem_of_nil.
  - rewrite init_degrees_snoc. simpl.
    destruct (decide (u = w)) as [->|Hne].
    + rewrite lookup_insert_eq, decide_True; [done|].
      apply elem_of_app. right. by left.
    + rewrite lookup_insert_ne, IH by done.
      destruct (decide (u ∈ ns)) as [Hin|Hnot].
      * rewrite decide_True; [done|]. apply elem_of_app. by left.
      * rewrite decide_False; [done|].
        rewrite elem_of_app, list_elem_of_singleton. naive_solver.
Qed.

Lemma basic_inv_length N st :
  basic_inv N st → (length (top_sort st ++ zero_nodes st) ≤ size N)%nat.
Proof.
  intros [Hdom Hnd Hnp].
  rewrite <-(size_list_to_set (C := gset K)) by done.
  apply subseteq_size. intros v Hv%elem_of_list_to_set.
  destruct (Hnp v Hv) as (d & Hd & _). rewrite <-Hdom.
  apply elem_of_dom. by eexists.
Qed.

Lemma basic_inv_init g ns :
  NoDup ns → basic_inv (list_to_set ns) (init_degrees g ns).
Proof.
  intros Hnd. split.
  - apply set_eq. intros u. rewrite elem_of_dom, init_degrees_lookup.
    rewrite elem_of_list_to_set. case_decide; [naive_solver|].
    split; [by intros [? ?]|done].
  - rewrite init_top_sort, init_zero_nodes. simpl. by apply NoDup_filter.
  - intros v. rewrite init_top_sort, init_zero_nodes. simpl.
    intros [Hz Hin]%list_elem_of_filter. rewrite init_degrees_lookup.
    rewrite decide_True by done. eexists. split; [done|]. lia.
Qed.

Lemma basic_inv_decrement N v st st' :
  basic_inv N st → decrement v st = Ok st' → basic_inv N st'.
Proof.
  intros [Hdom Hnd Hnp]. unfold decrement.
  destruct (degrees st !! v) as [d|] eqn:Hd; [|done]. intros [= <-].
  split; simpl.
  - rewrite dom_insert_lookup_L; [done|by eexists].
  - case_decide as Hz; [|done].
    rewrite app_assoc. apply NoDup_app.
    split_and!; [done| |apply NoDup_singleton].
    intros x Hx ->%list_elem_of_singleton.
    destruct (Hnp v Hx) as (d' & Hd' & Hle). simplify_eq. lia.
  - intros x Hx. destruct (decide (x = v)) as [->|Hne].
    + rewrite lookup_insert_eq. eexists. split; [done|].
      case_decide as Hz; [lia|].
      destruct (Hnp v Hx) as (d' & Hd' & Hle). simplify_eq. lia.
    + rewrite lookup_insert_ne by done. apply Hnp.
      case_decide; [|done]. rewrite app_assoc in Hx.
      apply elem_of_app in Hx as [Hx|Hx%list_elem_of_singleton]; done.
Qed.

Lemma top_sort_decrement v st st' :
  decrement v st = Ok st' → top_sort st' = top_sort st.
Proof.
  unfold decrement. destruct (degrees st !! v); [|done]. by intros [= <-].
Qed.

Lemma top_sort_while_body g u zs st st' :
  while_body g u zs st = Ok st' → top_sort st' = top_sort st ++ [u].
Proof.
  unfold while_body.
  apply (for_in_preserves (λ s, top_sort s = top_sort st ++ [u])); [|done].
  intros x s s' Hs Hx. by rewrite (top_sort_decrement x s s').
Qed.

Lemma basic_inv_while_body N g u zs st st' :
  basic_inv N st → pop (zero_nodes st) = Some (zs, u) →
  while_body g u zs st = Ok st' → basic_inv N st'.
Proof.
  intros [Hdom Hnd Hnp] Hpop%pop_Some. unfold while_body.
  apply (for_in_preserves (basic_inv N)).
  { intros x s s' Hs Hx. by eapply basic_inv_decrement. }
  rewrite Hpop in Hnd, Hnp. split; simpl; [done| |].
  - revert Hnd. rewrite !NoDup_app. setoid_rewrite elem_of_app.
    setoid_rewrite list_elem_of_singleton. naive_solver.
  - intros v Hv. apply Hnp. revert Hv. rewrite !elem_of_app. naive_solver.
Qed.

Lemma basic_inv_loop_state g ns st :
  NoDup ns → loop_state g ns st → basic_inv (list_to_set ns) st.
Proof.
  intros Hnd. induction 1 as [|st zs u st' _ IH Hpop Hbody].
  - by apply basic_inv_init.
  - by eapply basic_inv_while_body.
Qed.

(** *** Enough fuel *)

Lemma while_loop_terminates N g st fuel :
  basic_inv N st →
  (size N - length (top_sort st) < fuel)%nat →
  ∃ r, while_loop fuel g st = Some r.
Proof.
  revert st. induction fuel as [|fuel IH]; intros st Hinv Hfuel; [lia|].
  simpl. destruct (pop (zero_nodes st)) as [[zs u]|] eqn:Hpop; [|by eexists].
  destruct (while_body g u zs st) as [st'|e] eqn:Hbody; [|by eexists].
  apply IH; [by eapply basic_inv_while_body|].
  rewrite (top_sort_while_body g u zs st st' Hbody), length_app. simpl.
  pose proof (basic_inv_length N st Hinv) as Hlen.
  apply pop_Some in Hpop. rewrite Hpop, !length_app in Hlen. simpl in Hlen.
  lia.
Qed.

Lemma while_loop_fuel_mono g st fuel fuel' r :
  while_loop fuel g st = Some r → (fuel ≤ fuel')%nat →
  while_loop fuel' g st = Some r.
Proof.
  revert st fuel'. induction fuel as [|fuel IH]; intros st fuel'; [done|].
  intros Hrun Hle. destruct fuel' as [|fuel']; [lia|]. simpl in *.
  destruct (pop (zero_nodes st)) as [[zs u]|]; [|done].
  destruct (while_body g u zs st) as [st'|e]; [|done].
  apply IH; [done|lia].
Qed.

(** The state in which the loop is left is a loop state with an empty
    worklist. *)
Lemma while_loop_exit g ns st fuel st' :
  loop_state g ns st → while_loop fuel g st = Some (Ok st') →
  loop_state g ns st' ∧ zero_nodes st' = [].
Proof.
  revert st. induction fuel as [|fuel IH]; intros st Hst; [done|]. simpl.
  destruct (pop (zero_nodes st)) as [[zs u]|] eqn:Hpop.
  - destruct (while_body g u zs st) as [st1|e] eqn:Hbody; [|done].
    apply IH. by eapply loop_state_step.
  - intros [= <-]. by apply pop_None in Hpop.
Qed.

Lemma Permutation_elements_nodes g ns :
  ns ≡ₚ elements (nodes g) →
  NoDup ns ∧ list_to_set ns = nodes g ∧ length ns = size (nodes g).
Proof.
  intros Hperm. split_and!.
  - rewrite Hperm. apply NoDup_elements.
  - apply set_eq. intros x.
    by rewrite elem_of_list_to_set, Hperm, elem_of_elements.
  - by rewrite Hperm.
Qed.
End kahn_basic.

(** ** Kahn's algorithm on a well-formed graph *)

Section kahn_wf.
Context `{Countable K}.
Implicit Types (g : DirectedGraph K) (u v x : K) (l ns ts : list K)
  (st : kahn_state K).

Lemma occurs_before_elem_of l u v :
  occurs_before l u v → u ∈ l ∧ v ∈ l.
Proof.
  intros (i & j & Hi & Hj & _). split; by eapply list_elem_of_lookup_2.
Qed.

Lemma occurs_before_trans l u v x :
  NoDup l → occurs_before l u v → occurs_before l v x → occurs_before l u x.
Proof.
  intros Hnd (i & j & Hi & Hj & Hij) (j' & k & Hj' & Hk & Hjk).
  rewrite (NoDup_lookup l j j' v Hnd Hj Hj') in Hij.
  exists i, k. split_and!; [done..|lia].
Qed.

Lemma occurs_before_irrefl l u : NoDup l → ¬ occurs_before l u u.
Proof.
  intros Hnd (i & j & Hi & Hj & Hij).
  rewrite (NoDup_lookup l i j u Hnd Hi Hj) in Hij. lia.
Qed.

Lemma occurs_before_snoc l u v : u ∈ l → v ∉ l → occurs_before (l ++ [v]) u v.
Proof.
  intros [i Hi]%list_elem_of_lookup_1 Hv. exists i, (length l).
  split_and!.
  - by apply lookup_app_l_Some.
  - by rewrite list_lookup_middle.
  - by eapply lookup_lt_Some.
Qed.

Lemma occurs_before_app l k u v :
  occurs_before l u v → occurs_before (l ++ k) u v.
Proof.
  intros (i & j & Hi & Hj & Hij). exists i, j.
  split_and!; [by apply lookup_app_l_Some..|done].
Qed.

(** An order that respects the edges follows every path, so there is no
    cycle. *)
Lemma respects_edges_tc g l u v :
  NoDup l → respects_edges g l → tc (edge g) u v → occurs_before l u v.
Proof.
  intros Hnd Hres. induction 1 as [u v Huv|u w v Huw _ IH].
  - by apply Hres.
  - eapply occurs_before_trans; [done| |done]. by apply Hres.
Qed.

Lemma respects_edges_acyclic g l :
  NoDup l → respects_edges g l → acyclic g.
Proof.
  intros Hnd Hres u Hcycle. eapply occurs_before_irrefl; [done|].
  by eapply respects_edges_tc.
Qed.

Lemma acyclic_not_has_cycle g : acyclic g ↔ ¬ has_cycle g.
Proof. unfold acyclic, has_cycle. naive_solver. Qed.

(** A finite non-empty set in which every element has a predecessor holds
    a cycle. *)
Lemma finite_predecessors_cycle (R : relation K) (X : gset K) :
  X ≠ ∅ → (∀ x, x ∈ X → ∃ y, y ∈ X ∧ tc R y x) → ∃ x, tc R x x.
Proof.
  induction X as [|x X Hx IH] using set_ind_L; [done|].
  intros _ Hpred. destruct (Hpred x) as (y & Hy & Hyx); [set_solver|].
  destruct (decide (y = x)) as [->|Hne]; [by exists x|].
  apply IH; [set_solver|]. intros z Hz.
  destruct (Hpred z) as (w & Hw & Hwz); [set_solver|].
  destruct (decide (w = x)) as [->|Hwx].
  - exists y. split; [set_solver|]. by etrans.
  - exists w. split; [set_solver|done].
Qed.

(** *** Pending predecessors *)

Lemma pending_nil g ts v :
  wf g → pending g ts v = [] ↔ ∀ u, (u, v) ∈ edges g → u ∈ ts.
Proof.
  intros Hwf. unfold pending. split.
  - intros Hnil u Huv%(wf_pred g Hwf).
    destruct (decide (u ∈ ts)) as [|Hnot]; [done|].
    by destruct (filter_nil_not_elem_of (λ w, w ∉ ts) _ u Hnil).
  - intros Hall. apply elem_of_nil_inv.
    intros u [Hnot Hin%(wf_pred g Hwf)]%list_elem_of_filter. auto.
Qed.

Lemma filter_notin_snoc_other l ts u :
  u ∉ l → filter (λ w, w ∉ ts ++ [u]) l = filter (λ w, w ∉ ts) l.
Proof.
  intros Hu. induction l as [|y l IH]; [done|].
  apply not_elem_of_cons in Hu as [Hne Hu]. rewrite !filter_cons, IH by done.
  destruct (decide (y ∉ ts)) as [Hy|Hy].
  - rewrite decide_True; [done|].
    rewrite elem_of_app, list_elem_of_singleton. naive_solver.
  - rewrite decide_False; [done|]. rewrite elem_of_app. naive_solver.
Qed.

Lemma filter_notin_snoc_length l ts u :
  NoDup l → u ∈ l → u ∉ ts →
  length (filter (λ w, w ∉ ts) l) = S (length (filter (λ w, w ∉ ts ++ [u]) l)).
Proof.
  intros Hnd Hin Hts. induction Hnd as [|y l Hy Hnd IH]; [by apply elem_of_nil in Hin|].
  apply elem_of_cons in Hin as [->|Hin].
  - rewrite filter_cons_True by done.
    rewrite (filter_cons_False _ y).
    + by rewrite filter_notin_snoc_other.
    + intros Hn. apply Hn. apply elem_of_app. right. by left.
  - assert (y ≠ u) by (by intros ->).
    rewrite !filter_cons. destruct (decide (y ∉ ts)) as [Hyt|Hyt].
    + rewrite decide_True; [simpl; by rewrite IH|].
      rewrite elem_of_app, list_elem_of_singleton. naive_solver.
    + rewrite decide_False; [by apply IH|]. rewrite elem_of_app. naive_solver.
Qed.

Lemma pending_snoc_other g ts u v :
  wf g → (u, v) ∉ edges g → pending g (ts ++ [u]) v = pending g ts v.
Proof.
  intros Hwf Huv. apply filter_notin_snoc_other. by rewrite (wf_pred g Hwf).
Qed.

Lemma pending_snoc_edge g ts u v :
  wf g → (u, v) ∈ edges g → u ∉ ts →
  length (pending g ts v) = S (length (pending g (ts ++ [u]) v)).
Proof.
  intros Hwf Huv Hts. apply filter_notin_snoc_length; [|by apply Hwf|done].
  by apply Hwf.
Qed.
(** *** The invariant of the [while] loop *)

Lemma pending_no_output g v : pending g [] v = get_predecessors v g.
Proof.
  unfold pending. induction (get_predecessors v g) as [|y l IH]; [done|].
  rewrite filter_cons_True; [by rewrite IH|]. by intros ?%elem_of_nil.
Qed.

Lemma kahn_inv_init g ns :
  wf g → ns ≡ₚ elements (nodes g) → kahn_inv g (init_degrees g ns).
Proof.
  intros Hwf (Hnd & Hset & _)%Permutation_elements_nodes.
  destruct (basic_inv_init g ns Hnd) as [Hdom Hnodup _].
  assert (∀ v, v ∈ ns ↔ v ∈ nodes g) as Hns.
  { intros v. by rewrite <-Hset, elem_of_list_to_set. }
  split.
  - by rewrite Hdom.
  - done.
  - intros v Hv%Hns. rewrite init_degrees_lookup, decide_True by done.
    by rewrite init_top_sort, pending_no_output.
  - intros v. rewrite init_zero_nodes, init_top_sort, pending_no_output.
    rewrite list_elem_of_filter, Hns, length_zero_iff_nil, elem_of_nil.
    naive_solver.
  - intros v. rewrite init_top_sort. by intros ?%elem_of_nil.
  - intros u v _. rewrite init_top_sort. by intros ?%elem_of_nil.
Qed.

(** Facts about the node [u] that the loop has just popped. *)
Lemma popped_node g st zs u :
  wf g → kahn_inv g st → zero_nodes st = zs ++ [u] →
  u ∈ nodes g ∧ (u ∉ top_sort st) ∧ (u ∉ zs) ∧
  (∀ w, (w, u) ∈ edges g → w ∈ top_sort st) ∧
  (∀ w, (u, w) ∈ edges g → (w ∉ top_sort st) ∧ (w ∉ zs) ∧ w ≠ u).
Proof.
  intros Hwf Hinv Hzs.
  assert (u ∈ zero_nodes st) as Hu.
  { rewrite Hzs. apply elem_of_app. right. by left. }
  apply (ki_zero g st Hinv) in Hu as (Hnode & Hts & Hpend).
  rewrite pending_nil in Hpend by done.
  pose proof (ki_nodup g st Hinv) as Hnd. rewrite Hzs in Hnd.
  apply NoDup_app in Hnd as (_ & _ & Hnd).
  apply NoDup_app in Hnd as (_ & Hzu & _).
  assert (u ∉ zs) as Huz.
  { intros Huz. apply (Hzu u Huz). by left. }
  split_and!; [done..|]. intros w Huw.
  assert (w ∉ top_sort st) as Hw.
  { intros Hw. by apply (ki_order g st Hinv u w Huw), occurs_before_elem_of in Hw as [? _]. }
  split_and!; [done| |].
  - intros Hwz. assert (w ∈ zero_nodes st) as Hwin.
    { rewrite Hzs. apply elem_of_app. by left. }
    apply (ki_zero g st Hinv) in Hwin as (_ & _ & Hwp).
    rewrite pending_nil in Hwp by done. by apply Hwp in Huw.
  - intros ->. by apply Hpend in Huw.
Qed.

Lemma inner_inv_start g st zs u :
  wf g → kahn_inv g st → zero_nodes st = zs ++ [u] →
  inner_inv g (top_sort st) u (get_successors u g)
    {| degrees := degrees st; zero_nodes := zs;
       top_sort := top_sort st ++ [u] |}.
Proof.
  intros Hwf Hinv Hzs.
  destruct (popped_node g st zs u Hwf Hinv Hzs)
    as (Hnode & Hts & Huz & Hpreds & Hsuccs).
  pose proof (ki_nodup g st Hinv) as Hnd. rewrite Hzs in Hnd.
  split; simpl.
  - done.
  - by apply Hinv.
  - revert Hnd. rewrite !NoDup_app. setoid_rewrite elem_of_app.
    setoid_rewrite list_elem_of_singleton. naive_solver.
  - intros v Hv. rewrite (ki_degrees g st Hinv v Hv).
    case_decide as Hin; [done|]. rewrite pending_snoc_other; [done..|].
    by rewrite <-(wf_succ g Hwf).
  - intros v. rewrite (wf_succ g Hwf). split.
    + intros Hvz. assert (v ∈ zero_nodes st) as Hin.
      { rewrite Hzs. apply elem_of_app. by left. }
      apply (ki_zero g st Hinv) in Hin as (Hvn & Hvt & Hvp).
      assert ((u, v) ∉ edges g) as Hno.
      { intros Huv. by destruct (Hsuccs v Huv) as (_ & ? & _). }
      split_and!; [done| |done|by rewrite pending_snoc_other].
      rewrite elem_of_app, list_elem_of_singleton. intros [?| ->]; done.
    + intros (Hvn & Hvt & Hno & Hvp).
      rewrite pending_snoc_other in Hvp by done.
      rewrite elem_of_app, list_elem_of_singleton in Hvt.
      assert (v ∈ zero_nodes st) as Hin by (apply Hinv; naive_solver).
      rewrite Hzs, elem_of_app, list_elem_of_singleton in Hin. naive_solver.
Qed.

Lemma inner_inv_decrement g ts u v todo s :
  wf g → u ∉ ts → (u, v) ∈ edges g → v ∉ ts → v ≠ u → v ∉ todo →
  inner_inv g ts u (v :: todo) s →
  ∃ s', decrement v s = Ok s' ∧ inner_inv g ts u todo s'.
Proof.
  intros Hwf Hu Huv Hvts Hvu Hvtodo [Hts Hdom Hnd Hdeg Hzero].
  assert (v ∈ nodes g) as Hv by (apply (wf_nodes g Hwf); eauto).
  pose proof (Hdeg v Hv) as Hd. rewrite decide_True in Hd by left.
  rewrite (pending_snoc_edge g ts u v) in Hd by done.
  unfold decrement. rewrite Hd. eexists. split; [done|].
  assert (v ∉ ts ++ [u]) as Hvout.
  { rewrite elem_of_app, list_elem_of_singleton. naive_solver. }
  assert (v ∉ zero_nodes s) as Hvz.
  { rewrite Hzero. intros (_ & _ & Hn & _). apply Hn. by left. }
  split; simpl.
  - done.
  - rewrite dom_insert_lookup_L; [done|by eexists].
  - case_decide as Hz; [|done]. rewrite app_assoc. apply NoDup_app.
    split_and!; [done| |apply NoDup_singleton].
    intros x Hx ->%list_elem_of_singleton. revert Hx.
    rewrite elem_of_app. naive_solver.
  - intros x Hx. destruct (decide (x = v)) as [->|Hne].
    + rewrite lookup_insert_eq, decide_False by done. f_equal. lia.
    + rewrite lookup_insert_ne, Hdeg by done. do 3 f_equal.
      destruct (decide (x ∈ todo)) as [Hin|Hnot].
      * rewrite decide_True; [done|by right].
      * rewrite decide_False; [done|]. rewrite elem_of_cons. naive_solver.
  - intros x. destruct (decide (x = v)) as [->|Hne].
    + assert (pending g (ts ++ [u]) v = [] ↔
              Z.of_nat (S (length (pending g (ts ++ [u]) v))) - 1 = 0) as Hiff.
      { rewrite <-length_zero_iff_nil. lia. }
      case_decide as Hz.
      * rewrite elem_of_app, list_elem_of_singleton. naive_solver.
      * naive_solver.
    + transitivity (x ∈ zero_nodes s).
      * case_decide; [|done].
        rewrite elem_of_app, list_elem_of_singleton. naive_solver.
      * rewrite Hzero, elem_of_cons. naive_solver.
Qed.

Lemma inner_inv_for_in g ts u todo s :
  wf g → u ∉ ts →
  (∀ v, v ∈ todo → (u, v) ∈ edges g ∧ (v ∉ ts) ∧ v ≠ u) → NoDup todo →
  inner_inv g ts u todo s →
  ∃ s', for_in todo decrement s = Ok s' ∧ inner_inv g ts u [] s'.
Proof.
  intros Hwf Hu. revert s.
  induction todo as [|v todo IH]; intros s Htodo Hnd Hinv; simpl.
  - by exists s.
  - apply NoDup_cons in Hnd as [Hv Hnd].
    destruct (Htodo v) as (Huv & Hvts & Hvu); [left|].
    destruct (inner_inv_decrement g ts u v todo s) as (s1 & -> & Hinv1);
      [done..|].
    simpl. apply IH; [|done..]. intros w Hw. apply Htodo. by right.
Qed.

Lemma kahn_inv_while_body g st zs u :
  wf g → kahn_inv g st → pop (zero_nodes st) = Some (zs, u) →
  ∃ st', while_body g u zs st = Ok st' ∧ kahn_inv g st'.
Proof.
  intros Hwf Hinv Hzs%pop_Some.
  destruct (popped_node g st zs u Hwf Hinv Hzs)
    as (Hnode & Hts & Huz & Hpreds & Hsuccs).
  destruct (inner_inv_for_in g (top_sort st) u (get_successors u g)
              {| degrees := degrees st; zero_nodes := zs;
                 top_sort := top_sort st ++ [u] |})
    as (st' & Hrun & [Htop Hdom Hnd Hdeg Hzero]).
  { done. }
  { done. }
  { intros v Hv%(wf_succ g Hwf). destruct (Hsuccs v Hv) as (? & _ & ?). done. }
  { by apply Hwf. }
  { by apply inner_inv_start. }
  exists st'. split; [done|]. split; rewrite ?Htop.
  - done.
  - done.
  - intros v Hv. rewrite (Hdeg v Hv), decide_False; [done|].
    by intros ?%elem_of_nil.
  - intros v. rewrite Hzero, elem_of_nil. naive_solver.
  - intros v [Hv| ->%list_elem_of_singleton]%elem_of_app; [|done].
    by apply (ki_sorted g st Hinv).
  - intros a b Hab [Hb| ->%list_elem_of_singleton]%elem_of_app.
    + apply occurs_before_app. by apply (ki_order g st Hinv).
    + apply occurs_before_snoc; [by apply Hpreds|done].
Qed.

Lemma kahn_inv_loop_state g ns st :
  wf g → ns ≡ₚ elements (nodes g) → loop_state g ns st → kahn_inv g st.
Proof.
  intros Hwf Hperm. induction 1 as [|st zs u st' _ IH Hpop Hbody].
  - by apply kahn_inv_init.
  - destruct (kahn_inv_while_body g st zs u Hwf IH Hpop) as (st1 & Hrun & Hinv).
    rewrite Hbody in Hrun. by simplify_eq.
Qed.
Lemma kahn_inv_length g st :
  kahn_inv g st → (length (top_sort st ++ zero_nodes st) ≤ size (nodes g))%nat.
Proof.
  intros Hinv. rewrite <-(size_list_to_set (C := gset K)) by apply Hinv.
  apply subseteq_size. intros v [Hv|Hv]%elem_of_list_to_set%elem_of_app.
  - by apply (ki_sorted g st Hinv).
  - by apply (ki_zero g st Hinv) in Hv as [? _].
Qed.

(** *** Leaving the loop *)

Lemma while_loop_wf g st fuel :
  wf g → kahn_inv g st →
  (size (nodes g) - length (top_sort st) < fuel)%nat →
  ∃ st', while_loop fuel g st = Some (Ok st') ∧
         kahn_inv g st' ∧ zero_nodes st' = [].
Proof.
  intros Hwf. revert st.
  induction fuel as [|fuel IH]; intros st Hinv Hfuel; [lia|]. simpl.
  destruct (pop (zero_nodes st)) as [[zs u]|] eqn:Hpop.
  - destruct (kahn_inv_while_body g st zs u Hwf Hinv Hpop)
      as (st1 & Hbody & Hinv1).
    rewrite Hbody. apply IH; [done|].
    rewrite (top_sort_while_body g u zs st st1 Hbody), length_app. simpl.
    pose proof (kahn_inv_length g st Hinv) as Hlen.
    apply pop_Some in Hpop. rewrite Hpop, !length_app in Hlen. simpl in Hlen.
    lia.
  - exists st. by apply pop_None in Hpop.
Qed.

(** When the worklist is empty and a node is missing from the output, each
    missing node has a missing predecessor: the missing nodes hold a
    cycle. *)
Lemma kahn_exit_cycle g st :
  wf g → kahn_inv g st → zero_nodes st = [] →
  (length (top_sort st) < size (nodes g))%nat → has_cycle g.
Proof.
  intros Hwf Hinv Hzero Hlt.
  apply (finite_predecessors_cycle (edge g) (nodes g ∖ list_to_set (top_sort st))).
  - intros Hempty.
    assert (nodes g ⊆ list_to_set (top_sort st)) as Hsub by set_solver.
    apply subseteq_size in Hsub. rewrite size_list_to_set in Hsub; [lia|].
    by destruct (proj1 (NoDup_app _ _) (ki_nodup g st Hinv)).
  - intros x [Hx Hout]%elem_of_difference.
    rewrite elem_of_list_to_set in Hout.
    destruct (pending g (top_sort st) x) as [|y l] eqn:Hpend.
    { assert (x ∈ zero_nodes st) as Hin by (by apply Hinv).
      rewrite Hzero in Hin. by apply elem_of_nil in Hin. }
    assert (y ∈ pending g (top_sort st) x) as Hy by (rewrite Hpend; left).
    apply list_elem_of_filter in Hy as [Hyout Hyx%(wf_pred g Hwf)].
    exists y. split; [|by apply tc_once].
    apply elem_of_difference. rewrite elem_of_list_to_set.
    split; [|done]. apply (wf_nodes g Hwf). eauto.
Qed.

Lemma kahn_exit_order g st :
  wf g → kahn_inv g st →
  ¬ (length (top_sort st) < size (nodes g))%nat →
  top_sort st ≡ₚ elements (nodes g) ∧ respects_edges g (top_sort st).
Proof.
  intros Hwf Hinv Hge.
  assert (NoDup (top_sort st)) as Hnd.
  { by destruct (proj1 (NoDup_app _ _) (ki_nodup g st Hinv)). }
  assert (list_to_set (top_sort st) = nodes g) as Hset.
  { apply set_subseteq_size_eq.
    - intros v Hv%elem_of_list_to_set. by apply (ki_sorted g st Hinv).
    - rewrite size_list_to_set by done. lia. }
  assert (∀ v, v ∈ top_sort st ↔ v ∈ nodes g) as Hin.
  { intros v. by rewrite <-Hset, elem_of_list_to_set. }
  split.
  - apply NoDup_Permutation; [done|apply NoDup_elements|].
    intros v. by rewrite elem_of_elements.
  - intros u v Huv. apply (ki_order g st Hinv); [done|].
    apply Hin, (wf_nodes g Hwf). eauto.
Qed.

(** *** The whole function *)

Lemma kahns_algo_wf g ns fuel :
  wf g → ns ≡ₚ elements (nodes g) → (size (nodes g) < fuel)%nat →
  ∃ st, while_loop fuel g (init_degrees g ns) = Some (Ok st) ∧
        kahns_algo fuel ns g = Some (check_complete g st) ∧
        kahn_inv g st ∧ zero_nodes st = [].
Proof.
  intros Hwf Hperm Hfuel.
  destruct (while_loop_wf g (init_degrees g ns) fuel) as (st & Hrun & Hinv & Hz).
  { done. }
  { by apply kahn_inv_init. }
  { rewrite init_top_sort. simpl. lia. }
  exists st. unfold kahns_algo. by rewrite Hrun.
Qed.

Lemma kahns_algo_cyclic g ns fuel :
  wf g → ns ≡ₚ elements (nodes g) → (size (nodes g) < fuel)%nat →
  has_cycle g →
  kahns_algo fuel ns g = Some (Raise (Exception cycle_msg)).
Proof.
  intros Hwf Hperm Hfuel Hcycle.
  destruct (kahns_algo_wf g ns fuel) as (st & _ & -> & Hinv & _); [done..|].
  unfold check_complete, get_nodes. case_decide as Hlt; [done|].
  destruct (kahn_exit_order g st Hwf Hinv Hlt) as [Hperm' Hres].
  apply acyclic_not_has_cycle in Hcycle; [done|].
  apply (respects_edges_acyclic g (top_sort st)); [|done].
  rewrite Hperm'. apply NoDup_elements.
Qed.

Lemma kahns_algo_acyclic g ns fuel :
  wf g → ns ≡ₚ elements (nodes g) → (size (nodes g) < fuel)%nat →
  acyclic g →
  ∃ order, kahns_algo fuel ns g = Some (Ok order) ∧
           order ≡ₚ elements (nodes g) ∧ respects_edges g order ∧
           is_topological_sort g order = Ok true.
Proof.
  intros Hwf Hperm Hfuel Hacyclic.
  destruct (kahns_algo_wf g ns fuel) as (st & _ & -> & Hinv & Hz); [done..|].
  unfold check_complete, get_nodes. case_decide as Hlt.
  { apply kahn_exit_cycle in Hlt; [|done..].
    by apply acyclic_not_has_cycle in Hacyclic. }
  destruct (kahn_exit_order g st Hwf Hinv Hlt) as [Hperm' Hres].
  exists (top_sort st). split_and!; [done..|].
  apply is_topological_sort_nodup; [done| |].
  - rewrite Hperm'. apply NoDup_elements.
  - split; [|done]. apply set_eq. intros v.
    by rewrite elem_of_list_to_set, Hperm', elem_of_elements.
Qed.
End kahn_wf.

(** ** The random graphs *)

Section random_dag_facts.
Context (float : Type) (float_gt : float → float → bool) (draws : nat → float).
Implicit Types (n u v : Z) (st : nat * DirectedGraph Z) (thr : float).

Lemma elem_of_range lo hi k : k ∈ range lo hi ↔ lo ≤ k < hi.
Proof. unfold range. rewrite elem_of_seqZ. lia. Qed.

Lemma NoDup_range lo hi : NoDup (range lo hi).
Proof. apply NoDup_seqZ. Qed.

Lemma lookup_range n k : 0 ≤ k < n → range 0 n !! Z.to_nat k = Some k.
Proof. intros Hk. unfold range. apply lookup_seqZ. lia. Qed.

(** The inner loop never meets an edge it has already added. *)
Lemma inner_loop_ok thr u (vs : list Z) st :
  reachable st.2 → NoDup vs →
  (∀ v, v ∈ vs → (u, v) ∉ edges st.2) →
  ∃ st', for_in vs (maybe_add_edge float float_gt draws thr u) st = Ok st' ∧
         reachable st'.2 ∧
         ∀ a b, (a, b) ∈ edges st'.2 →
                (a, b) ∈ edges st.2 ∨ (a = u ∧ b ∈ vs).
Proof.
  revert st. induction vs as [|v vs IH]; intros [k dag] Hreach Hnd Hnew; simpl.
  - eexists. split; [done|]. split; [done|]. auto.
  - apply NoDup_cons in Hnd as [Hv Hnd]. simpl in *.
    destruct (float_gt (draws k) thr).
    + assert (v ∉ get_successors u dag) as Hfresh.
      { rewrite (wf_succ dag (reachable_wf dag Hreach)). apply Hnew. by left. }
      pose proof (reachable_add_edge u v dag Hreach) as Hreach'.
      rewrite (add_edge_fresh u v dag Hfresh) in *. simpl in *.
      destruct (IH (S k, _) Hreach' Hnd) as (st' & -> & Hr & Hedges).
      { simpl. intros w Hw [Hold|[= ->]%list_elem_of_singleton]%elem_of_app;
          [|done]. revert Hold. apply Hnew. by right. }
      exists st'. split; [done|]. split; [done|].
      intros a b [[Hold|[= -> ->]%list_elem_of_singleton]%elem_of_app|[-> Hb]]%Hedges.
      * by left.
      * right. split; [done|]. by left.
      * right. split; [done|]. by right.
    + rewrite result_bind_Ok.
      destruct (IH (S k, dag) Hreach Hnd) as (st' & -> & Hr & Hedges).
      { intros w Hw. apply Hnew. by right. }
      exists st'. split; [done|]. split; [done|].
      intros a b [Hold|[-> Hb]]%Hedges; [by left|].
      right. split; [done|]. by right.
Qed.

Lemma outer_loop_ok thr n (us : list Z) st :
  reachable st.2 → NoDup us →
  (∀ u b, u ∈ us → (u, b) ∉ edges st.2) →
  ∃ st',
    for_in us
      (λ u, for_in (range (u + 1) n) (maybe_add_edge float float_gt draws thr u))
      st = Ok st' ∧
    reachable st'.2 ∧
    ∀ a b, (a, b) ∈ edges st'.2 →
           (a, b) ∈ edges st.2 ∨ (a ∈ us ∧ b ∈ range (a + 1) n).
Proof.
  revert st. induction us as [|u us IH]; intros st Hreach Hnd Hnew; simpl.
  - eexists. split; [done|]. split; [done|]. auto.
  - apply NoDup_cons in Hnd as [Hu Hnd].
    destruct (inner_loop_ok thr u (range (u + 1) n) st)
      as (st1 & -> & Hreach1 & Hedges1); [done|apply NoDup_range| |].
    { intros v _. apply Hnew. by left. }
    simpl. destruct (IH st1 Hreach1 Hnd) as (st' & -> & Hr & Hedges).
    { intros w b Hw [Hold|[-> _]]%Hedges1; [|done].
      revert Hold. apply Hnew. by right. }
    exists st'. split; [done|]. split; [done|].
    intros a b [[Hold|[-> Hb]]%Hedges1|[Ha Hb]]%Hedges.
    + by left.
    + right. split; [by left|done].
    + right. split; [by right|done].
Qed.

Lemma random_dag_ok n thr :
  ∃ dag, random_dag float float_gt draws n thr = Ok dag ∧
         reachable dag ∧
         ∀ u v, (u, v) ∈ edges dag → 0 ≤ u ∧ u < v ∧ v < n.
Proof.
  unfold random_dag.
  destruct (outer_loop_ok thr n (range 0 n) (0%nat, empty_graph))
    as (st' & -> & Hreach & Hedges).
  { constructor. }
  { apply NoDup_range. }
  { intros u b _ ?%elem_of_nil. done. }
  exists st'.2. split; [done|]. split; [done|].
  intros u v [?%elem_of_nil|[Hu Hv]]%Hedges; [done|].
  apply elem_of_range in Hu, Hv. lia.
Qed.

Lemma increasing_edges_respected (dag : DirectedGraph Z) n :
  (∀ u v, (u, v) ∈ edges dag → 0 ≤ u ∧ u < v ∧ v < n) →
  respects_edges dag (range 0 n).
Proof.
  intros Hedges u v Huv%Hedges. exists (Z.to_nat u), (Z.to_nat v).
  rewrite !lookup_range by lia. split_and!; [done..|lia].
Qed.
End random_dag_facts.

(** ** Properties of the graph class *)

Section graph_properties.
Context `{Countable K}.
Implicit Types (g : DirectedGraph K) (u v x : K) (l ns : list K)
  (st : kahn_state K).

(** C4: on a graph object, a call [add_edge(u, v)] for an edge that is
    already present raises the duplicate-edge exception and leaves the
    whole state (nodes, edges, successors, predecessors) as it was; in
    particular a second [add_edge(u, v)] right after a successful one raises
    and leaves the state the first call produced. *)
Theorem add_edge_duplicate_rejected g u v :
  reachable g →
  ((u, v) ∈ edges g →
   add_edge u v g = (Raise (Exception duplicate_edge_msg), g)) ∧
  (fst (add_edge u v g) = Ok () →
   add_edge u v (snd (add_edge u v g)) =
     (Raise (Exception duplicate_edge_msg), snd (add_edge u v g))).
Proof.
  assert (∀ g', reachable g' → (u, v) ∈ edges g' →
    add_edge u v g' = (Raise (Exception duplicate_edge_msg), g')) as Hdup.
  { intros g' Hwf%reachable_wf Huv%(wf_succ g' Hwf).
    pose proof (wf_add_edge_duplicate u v g' Hwf Huv) as Hstate.
    rewrite add_edge_duplicate in * by done. simpl in *. by rewrite Hstate. }
  intros Hreach. split; [by apply Hdup|]. intros Hok.
  apply Hdup; [by constructor|].
  destruct (add_edge_cases u v g) as [[_ Hraise]|[Hfresh _]]; [congruence|].
  rewrite add_edge_fresh by done. simpl. apply elem_of_app. right. by left.
Qed.

(** C5: every call of [add_edge], returning or raising, leaves a graph
    object in a state where each edge [(u, v)] of the edge sequence has [v]
    exactly once in [successors[u]] and [u] exactly once in
    [predecessors[v]], and where the node set is exactly the set of
    endpoints of the edge sequence; the constructor's state is such a
    state too. *)
Theorem add_edge_preserves_invariants g u v :
  reachable g →
  (adjacency_invariant g ∧ nodes_invariant g) ∧
  (adjacency_invariant (snd (add_edge u v g)) ∧
   nodes_invariant (snd (add_edge u v g))).
Proof.
  intros Hreach.
  pose proof (reachable_wf g Hreach) as Hwf.
  pose proof (wf_add_edge u v g Hwf) as Hwf'.
  split; (split; [by apply wf_adjacency|by apply wf_nodes]).
Qed.

(** C8: for a node [u] without outgoing edge, also one that is not a node
    of the graph at all, [get_successors(u)] returns the empty list;
    [get_predecessors(u)] does so for a node without incoming edge. *)
Theorem get_successors_default_empty g u :
  reachable g →
  ((∀ v, (u, v) ∉ edges g) → get_successors u g = []) ∧
  ((∀ v, (v, u) ∉ edges g) → get_predecessors u g = []) ∧
  (u ∉ nodes g → get_successors u g = [] ∧ get_predecessors u g = []).
Proof.
  intros Hwf%reachable_wf.
  assert ((∀ v, (u, v) ∉ edges g) → get_successors u g = []) as Hs.
  { intros Hno. apply elem_of_nil_inv. intros v Hv%(wf_succ g Hwf).
    by apply (Hno v). }
  assert ((∀ v, (v, u) ∉ edges g) → get_predecessors u g = []) as Hp.
  { intros Hno. apply elem_of_nil_inv. intros v Hv%(wf_pred g Hwf).
    by apply (Hno v). }
  split_and!; [done..|]. intros Hu.
  split; [apply Hs|apply Hp]; intros v Hv; apply Hu, (wf_nodes g Hwf); eauto.
Qed.

(** ** Properties of the validator *)

(** C3: on a graph object and any candidate sequence, [is_topological_sort]
    returns a boolean and never raises; the boolean is [True] exactly when
    the set of the sequence's elements is the graph's node set and, for
    every edge [(u, v)], the position of [u] in the sequence is strictly
    less than that of [v], the position of a node being that of its last
    occurrence (its only one in a sequence without repetition). *)
Theorem is_topological_sort_spec g (sequence : list K) :
  reachable g →
  ∃ b : bool,
    is_topological_sort g sequence = Ok b ∧
    (b = true ↔
     list_to_set sequence = nodes g ∧
     ∀ u v, (u, v) ∈ edges g →
       ∃ i j, last_position sequence u i ∧ last_position sequence v j ∧
              (i < j)%nat) ∧
    (NoDup sequence →
     (b = true ↔
      list_to_set sequence = nodes g ∧ respects_edges g sequence)).
Proof.
  intros Hwf%reachable_wf.
  destruct (is_topological_sort_wf g sequence Hwf) as (b & Hrun & Hb).
  exists b. split_and!; [done..|]. intros Hnd.
  rewrite <-(is_topological_sort_nodup g sequence Hwf Hnd), Hrun.
  naive_solver.
Qed.

(** ** Properties of Kahn's algorithm *)

(** C9: on every graph object, cyclic or not, and whatever the order [ns]
    in which the node set is iterated, [kahns_algo] terminates: more than
    [len(nodes)] iterations of the [while] loop are never needed, and more
    fuel does not change the result.  At the head of the loop the output
    followed by the worklist never repeats a node (a node enters the
    worklist at most once, and the output at most once), so the output is
    never longer than the node count. *)
Theorem kahns_algo_terminates g ns (fuel : nat) :
  ns ≡ₚ elements (nodes g) →
  (size (nodes g) < fuel)%nat →
  (∃ r, kahns_algo fuel ns g = Some r) ∧
  (∀ fuel' : nat, (fuel ≤ fuel')%nat →
     kahns_algo fuel' ns g = kahns_algo fuel ns g) ∧
  (∀ st, loop_state g ns st →
     NoDup (top_sort st ++ zero_nodes st) ∧
     (length (top_sort st) + length (zero_nodes st) ≤ size (nodes g))%nat) ∧
  (∀ st, while_loop fuel g (init_degrees g ns) = Some (Ok st) →
     NoDup (top_sort st) ∧ (length (top_sort st) ≤ size (nodes g))%nat).
Proof.
  intros (Hnd & Hset & Hlen)%Permutation_elements_nodes Hfuel.
  assert (∀ st, loop_state g ns st →
    NoDup (top_sort st ++ zero_nodes st) ∧
    (length (top_sort st) + length (zero_nodes st) ≤ size (nodes g))%nat)
    as Hstates.
  { intros st Hst%basic_inv_loop_state; [|done]. rewrite Hset in Hst.
    split; [by apply Hst|].
    rewrite <-length_app. by apply basic_inv_length. }
  destruct (while_loop_terminates (nodes g) g (init_degrees g ns) fuel)
    as [r Hr].
  { rewrite <-Hset. by apply basic_inv_init. }
  { rewrite init_top_sort. simpl. lia. }
  split_and!.
  - unfold kahns_algo. rewrite Hr. by eexists.
  - intros fuel' Hle. unfold kahns_algo.
    by rewrite Hr, (while_loop_fuel_mono g _ fuel fuel' r Hr Hle).
  - done.
  - intros st Hrun.
    destruct (while_loop_exit g ns _ fuel st (loop_state_init g ns) Hrun)
      as [Hst Hzero].
    destruct (Hstates st Hst) as [Hnodup Hle]. rewrite Hzero in *.
    rewrite app_nil_r in Hnodup. simpl in Hle. split; [done|lia].
Qed.

(** C1: on a graph object, whatever the order [ns] in which the node set
    is iterated, [kahns_algo] raises the cycle exception exactly when the
    graph has a directed cycle, and returns a sequence when it has none;
    the test it makes after the loop, output shorter than the node count,
    holds exactly when the graph has a cycle. *)
Theorem kahns_algo_raises_iff_cycle g ns (fuel : nat) :
  reachable g →
  ns ≡ₚ elements (nodes g) →
  (size (nodes g) < fuel)%nat →
  (kahns_algo fuel ns g = Some (Raise (Exception cycle_msg)) ↔ has_cycle g) ∧
  (¬ has_cycle g → ∃ order, kahns_algo fuel ns g = Some (Ok order)) ∧
  (∃ st, while_loop fuel g (init_degrees g ns) = Some (Ok st) ∧
         kahns_algo fuel ns g = Some (check_complete g st) ∧
         ((length (top_sort st) < size (get_nodes g))%nat ↔ has_cycle g)) ∧
  topological_sort fuel ns g = kahns_algo fuel ns g.
Proof.
  intros Hwf%reachable_wf Hperm Hfuel.
  assert (¬ has_cycle g → ∃ order, kahns_algo fuel ns g = Some (Ok order))
    as Hacyclic.
  { intros Hno%acyclic_not_has_cycle.
    destruct (kahns_algo_acyclic g ns fuel) as (order & Hrun & _); eauto. }
  destruct (kahns_algo_wf g ns fuel) as (st & Hloop & Hrun & Hinv & Hzero);
    [done..|].
  assert ((length (top_sort st) < size (get_nodes g))%nat ↔ has_cycle g)
    as Htest.
  { split; [by apply kahn_exit_cycle|]. intros Hcycle.
    pose proof (kahns_algo_cyclic g ns fuel Hwf Hperm Hfuel Hcycle) as Hraise.
    rewrite Hrun in Hraise. unfold check_complete in Hraise.
    by case_decide. }
  split_and!; [|done|by exists st|done].
  split; [|by apply kahns_algo_cyclic].
  rewrite Hrun. unfold check_complete. case_decide; [|done].
  intros _. by apply Htest.
Qed.

(** C2: on a graph object without cycle, [kahns_algo] returns a sequence
    that holds every node of the graph exactly once and nothing else, in
    which [u] comes strictly before [v] for every edge [(u, v)], and which
    [is_topological_sort] accepts. *)
Theorem kahns_algo_topological_order g ns (fuel : nat) :
  reachable g →
  acyclic g →
  ns ≡ₚ elements (nodes g) →
  (size (nodes g) < fuel)%nat →
  ∃ order,
    kahns_algo fuel ns g = Some (Ok order) ∧
    topological_sort fuel ns g = Some (Ok order) ∧
    order ≡ₚ elements (nodes g) ∧
    (∀ x, x ∈ nodes g → occurrences x order = 1%nat) ∧
    respects_edges g order ∧
    is_topological_sort g order = Ok true.
Proof.
  intros Hwf%reachable_wf Hacyclic Hperm Hfuel.
  destruct (kahns_algo_acyclic g ns fuel)
    as (order & Hrun & Hperm' & Hres & Hvalid); [done..|].
  exists order. split_and!; [done..| |done|done].
  intros x Hx. apply occurrences_nodup.
  - rewrite Hperm'. apply NoDup_elements.
  - by rewrite Hperm', elem_of_elements.
Qed.

(** C7: [add_edge(u, u)] returns normally on a graph object that does not
    yet have the self-loop, which it then has; and on a graph object with a
    self-loop [(u, u)], [kahns_algo] raises the cycle exception, the
    tracked in-degree of [u] being positive at every head of the [while]
    loop. *)
Theorem self_loop_raises g u ns (fuel : nat) :
  reachable g →
  ((u, u) ∉ edges g →
   fst (add_edge u u g) = Ok () ∧ (u, u) ∈ edges (snd (add_edge u u g))) ∧
  ((u, u) ∈ edges g →
   ns ≡ₚ elements (nodes g) →
   (size (nodes g) < fuel)%nat →
   kahns_algo fuel ns g = Some (Raise (Exception cycle_msg)) ∧
   ∀ st, loop_state g ns st → ∃ d, degrees st !! u = Some d ∧ 0 < d).
Proof.
  intros Hwf%reachable_wf. split.
  - intros Hno. rewrite <-(wf_succ g Hwf) in Hno.
    rewrite add_edge_fresh by done. simpl. split; [done|].
    apply elem_of_app. right. by left.
  - intros Hloop Hperm Hfuel. split.
    { apply kahns_algo_cyclic; [done..|]. exists u. by apply tc_once. }
    intros st Hinv%kahn_inv_loop_state; [|done..].
    assert (u ∈ nodes g) as Hu by (apply (wf_nodes g Hwf); eauto).
    assert (u ∉ top_sort st) as Hout.
    { intros Hin. apply (ki_order g st Hinv u u Hloop) in Hin.
      eapply occurs_before_irrefl; [|done].
      by destruct (proj1 (NoDup_app _ _) (ki_nodup g st Hinv)). }
    eexists. split; [by apply (ki_degrees g st Hinv)|].
    assert (u ∈ pending g (top_sort st) u) as Hpend.
    { apply list_elem_of_filter. split; [done|]. by apply (wf_pred g Hwf). }
    destruct (pending g (top_sort st) u); [by apply elem_of_nil in Hpend|].
    simpl. lia.
Qed.
End graph_properties.

(** ** Positions, repetitions and sub-sequences *)

Section order_facts.
Context `{Countable K}.
Implicit Types (g : DirectedGraph K) (u v x : K) (l : list K).

Lemma occurs_before_split l u v :
  occurs_before l u v ↔ ∃ l1 l2 l3, l = l1 ++ u :: l2 ++ v :: l3.
Proof.
  split.
  - intros (i & j & Hi & Hj & Hij).
    apply list_elem_of_split_length in Hi as (l1 & l' & -> & ->).
    rewrite lookup_app_r in Hj by lia.
    destruct (j - length l1)%nat as [|k] eqn:Hk; [lia|]. simpl in Hj.
    apply list_elem_of_split_length in Hj as (l2 & l3 & -> & _).
    by exists l1, l2, l3.
  - intros (l1 & l2 & l3 & ->).
    exists (length l1), (length l1 + S (length l2))%nat. split_and!.
    + by rewrite list_lookup_middle.
    + rewrite lookup_app_r by lia.
      replace (length l1 + S (length l2) - length l1)%nat
        with (S (length l2)) by lia.
      simpl. by rewrite list_lookup_middle.
    + lia.
Qed.

(** Filtering keeps the order of the elements it keeps. *)
Lemma occurs_before_filter (P : K → Prop) `{!∀ x, Decision (P x)} l u v :
  occurs_before l u v → P u → P v → occurs_before (filter P l) u v.
Proof.
  intros (l1 & l2 & l3 & ->)%occurs_before_split Hu Hv.
  apply occurs_before_split.
  exists (filter P l1), (filter P l2), (filter P l3).
  rewrite filter_app, filter_cons_True, filter_app, filter_cons_True by done.
  done.
Qed.

Lemma last_position_exists l u : u ∈ l → ∃ i, last_position l u i.
Proof.
  intros [i Hi]%index_of_is_Some. exists i. by apply index_of_Some.
Qed.

Lemma last_position_cons x l u (i : nat) :
  last_position (x :: l) u i ↔
  (∃ i', i = S i' ∧ last_position l u i') ∨ (i = 0%nat ∧ u = x ∧ u ∉ l).
Proof.
  split.
  - intros [Hi Hmax]. destruct i as [|i'].
    + right. injection Hi as ->. split_and!; [done..|].
      intros [j Hj]%list_elem_of_lookup_1. specialize (Hmax (S j) Hj). lia.
    + left. exists i'. split; [done|]. split; [done|].
      intros j Hj. specialize (Hmax (S j) Hj). lia.
  - intros [(i' & -> & Hi & Hmax)|(-> & -> & Hnot)].
    + split; [done|]. intros [|j] Hj; [lia|]. specialize (Hmax j Hj). lia.
    + split; [done|]. intros [|j] Hj; [lia|]. simpl in Hj.
      by apply list_elem_of_lookup_2 in Hj.
Qed.

Lemma last_before_elem_of l u v : last_before l u v → u ∈ l ∧ v ∈ l.
Proof.
  intros (i & j & [Hi _] & [Hj _] & _). split; by eapply list_elem_of_lookup_2.
Qed.

Lemma last_before_cons x l u v :
  last_before (x :: l) u v ↔ last_before l u v ∨ (u = x ∧ (x ∉ l) ∧ v ∈ l).
Proof.
  split.
  - intros (i & j & Hi%last_position_cons & Hj%last_position_cons & Hij).
    destruct Hi as [(i' & -> & Hi)|(-> & -> & Hnot)];
      destruct Hj as [(j' & -> & Hj)|(-> & _ & _)]; try lia.
    + left. exists i', j'. split_and!; [done..|lia].
    + right. split_and!; [done..|]. destruct Hj as [Hj _].
      by eapply list_elem_of_lookup_2.
  - intros [(i & j & Hi & Hj & Hij)|(-> & Hnot & [j Hj]%last_position_exists)].
    + exists (S i), (S j). rewrite !last_position_cons.
      split_and!; [left; eauto..|lia].
    + exists 0%nat, (S j). rewrite !last_position_cons.
      split_and!; [right; eauto|left; eauto|lia].
Qed.

(** Dropping every occurrence of a node but the last keeps the order of
    the last occurrences. *)
Lemma last_before_remove_dups l u v :
  last_before (remove_dups l) u v ↔ last_before l u v.
Proof.
  induction l as [|x l IH]; [done|]. simpl.
  rewrite last_before_cons. case_decide as Hx.
  - rewrite IH. naive_solver.
  - rewrite last_before_cons, IH, !elem_of_remove_dups. done.
Qed.

(** The validator cannot tell a sequence from the one that keeps only the
    last occurrence of each node. *)
Lemma is_topological_sort_remove_dups g l :
  wf g → is_topological_sort g l = is_topological_sort g (remove_dups l).
Proof.
  intros Hwf.
  destruct (is_topological_sort_wf g l Hwf) as (b & -> & Hb).
  destruct (is_topological_sort_wf g (remove_dups l) Hwf) as (b' & -> & Hb').
  assert (list_to_set (remove_dups l) = list_to_set (C := gset K) l) as Hset.
  { apply set_eq. intros x.
    by rewrite !elem_of_list_to_set, elem_of_remove_dups. }
  assert (b = true ↔ b' = true) as Hiff.
  { rewrite Hb, Hb', Hset. apply and_iff_compat_l.
    split; intros Hall u v Huv; apply (last_before_remove_dups l u v);
      by apply Hall. }
  destruct b, b'; naive_solver.
Qed.
End order_facts.

(** ** Properties of [random_dag] *)

Section random_dag_properties.
Context (float : Type) (float_gt : float → float → bool) (draws : nat → float).

(** C6: for every node count, every threshold and every outcome of the
    random draws, [random_dag] returns a graph whose edges all go from a
    label to a strictly larger one, within [0 .. N-1].  So the graph is
    acyclic, and the natural order [0, 1, ..., N-1] is a topological order
    of it: every edge goes from an earlier to a later position of that
    order, and [is_topological_sort] accepts the nodes of the graph taken
    in that order.  It accepts the full list [0, 1, ..., N-1] exactly when
    each of these labels is a node of the graph. *)
Theorem random_dag_edges_increasing (n_nodes : Z) (edge_threshold : float) :
  ∃ dag,
    random_dag float float_gt draws n_nodes edge_threshold = Ok dag ∧
    (∀ u v, (u, v) ∈ edges dag → 0 ≤ u ∧ u < v ∧ v < n_nodes) ∧
    acyclic dag ∧
    respects_edges dag (range 0 n_nodes) ∧
    is_topological_sort dag
      (filter (λ x, x ∈ nodes dag) (range 0 n_nodes)) = Ok true ∧
    (is_topological_sort dag (range 0 n_nodes) = Ok true ↔
     nodes dag = list_to_set (range 0 n_nodes)).
Proof.
  destruct (random_dag_ok float float_gt draws n_nodes edge_threshold)
    as (dag & Hrun & Hreach & Hedges).
  pose proof (increasing_edges_respected dag n_nodes Hedges) as Hres.
  pose proof (reachable_wf dag Hreach) as Hwf.
  exists dag. split_and!; [done..| | | |].
  - apply (respects_edges_acyclic dag (range 0 n_nodes)); [apply NoDup_range|done].
  - done.
  - apply is_topological_sort_nodup;
      [done|apply NoDup_filter, NoDup_range|]. split.
    + apply set_eq. intros x.
      rewrite elem_of_list_to_set, list_elem_of_filter, elem_of_range.
      split; [by intros [? _]|]. intros Hx. split; [done|].
      apply (wf_nodes dag Hwf) in Hx as [y [Hxy%Hedges|Hyx%Hedges]]; lia.
    + intros u v Huv.
      apply occurs_before_filter; [by apply Hres|..];
        apply (wf_nodes dag Hwf); eauto.
  - rewrite is_topological_sort_nodup; [|done|apply NoDup_range].
    naive_solver.
Qed.
End random_dag_properties.

(** ** Examples *)

(** Settles a decidable closed proposition by evaluating its decision
    procedure. *)
Ltac by_computation := apply (bool_decide_unpack _); vm_compute; exact I.

(** A sequence without repetition that the validator accepts shows that
    the graph has no cycle. *)
Lemma is_topological_sort_acyclic `{Countable K} (g : DirectedGraph K)
    (l : list K) :
  reachable g → NoDup l → is_topological_sort g l = Ok true → acyclic g.
Proof.
  intros Hwf%reachable_wf Hnd Hvalid.
  apply (is_topological_sort_nodup g l Hwf Hnd) in Hvalid as [_ Hres].
  by apply (respects_edges_acyclic g l).
Qed.

(** C10: the validator compares, for every edge, the positions of the last
    occurrences of its two endpoints in the candidate sequence: on a graph
    object it returns [True] exactly when the sequence has the graph's
    nodes as its set of elements and the last occurrence of [u] is
    strictly before the last occurrence of [v] for every edge [(u, v)], so
    that its answer does not change when every occurrence of a node but the
    last is dropped.  On the graph with the single edge [(0, 1)] it accepts
    [[1; 0; 1]], which repeats a node, is no permutation of the node set
    and has an occurrence of [1] before [0]; and it rejects [[0; 1; 0]],
    although an occurrence of [0] is before [1]. *)
Theorem validator_uses_last_occurrence :
  (∀ (K : Type) `(Countable K) (g : DirectedGraph K) (sequence : list K),
     reachable g →
     (is_topological_sort g sequence = Ok true ↔
      list_to_set sequence = nodes g ∧
      ∀ u v, (u, v) ∈ edges g → last_before sequence u v) ∧
     (is_topological_sort g sequence = Ok false ↔
      ¬ (list_to_set sequence = nodes g ∧
         ∀ u v, (u, v) ∈ edges g → last_before sequence u v)) ∧
     is_topological_sort g sequence =
       is_topological_sort g (remove_dups sequence) ∧
     (∀ u i, index_of sequence !! u = Some i ↔ last_position sequence u i)) ∧
  edges one_edge_graph = [(0, 1)] ∧
  nodes one_edge_graph = {[0; 1]} ∧
  is_topological_sort one_edge_graph [1; 0; 1] = Ok true ∧
  ¬ NoDup [1; 0; 1] ∧
  ¬ [1; 0; 1] ≡ₚ elements (nodes one_edge_graph) ∧
  occurs_before [1; 0; 1] 1 0 ∧
  is_topological_sort one_edge_graph [0; 1; 0] = Ok false ∧
  occurs_before [0; 1; 0] 0 1.
Proof.
  split_and!.
  - intros K ? ? g sequence Hwf%reachable_wf.
    destruct (is_topological_sort_wf g sequence Hwf) as (b & Hrun & Hb).
    fold (∀ u v, (u, v) ∈ edges g → last_before sequence u v) in Hb.
    split_and!.
    + rewrite Hrun, <-Hb. naive_solver.
    + rewrite Hrun, <-Hb. destruct b; naive_solver.
    + by apply is_topological_sort_remove_dups.
    + intros u i. apply index_of_Some.
  - reflexivity.
  - vm_compute. reflexivity.
  - vm_compute. reflexivity.
  - intros Hnd. pose proof (bool_decide_pack _ Hnd) as Hb.
    vm_compute in Hb. exact Hb.
  - intros Hperm%Permutation_length. vm_compute in Hperm. discriminate.
  - exists 0%nat, 1%nat. split_and!; [reflexivity..|lia].
  - vm_compute. reflexivity.
  - exists 0%nat, 1%nat. split_and!; [reflexivity..|lia].
Qed.

(** An instance of the general part: the answer on [[1; 0; 1]] is the
    answer on [[0; 1]]. *)
Lemma validator_uses_last_occurrence_witness :
  is_topological_sort one_edge_graph [1; 0; 1] =
  is_topological_sort one_edge_graph (remove_dups [1; 0; 1]).
Proof.
  destruct validator_uses_last_occurrence as [Hgeneral _].
  apply (Hgeneral Z _ _ one_edge_graph [1; 0; 1]).
  apply reachable_build.
Defined.

Lemma add_edge_duplicate_rejected_witness :
  add_edge 0 1 one_edge_graph =
    (Raise (Exception duplicate_edge_msg), one_edge_graph).
Proof.
  destruct (add_edge_duplicate_rejected one_edge_graph 0 1) as [Hdup _].
  - apply reachable_build.
  - apply Hdup. by_computation.
Defined.

Lemma add_edge_preserves_invariants_witness :
  adjacency_invariant (snd (add_edge 1 2 one_edge_graph)) ∧
  nodes_invariant (snd (add_edge 1 2 one_edge_graph)).
Proof.
  apply (add_edge_preserves_invariants one_edge_graph 1 2).
  apply reachable_build.
Defined.

Lemma get_successors_default_empty_witness :
  get_successors 7 one_edge_graph = [] ∧ get_predecessors 7 one_edge_graph = [].
Proof.
  destruct (get_successors_default_empty one_edge_graph 7) as (_ & _ & Hu).
  - apply reachable_build.
  - apply Hu. by_computation.
Defined.

Lemma is_topological_sort_spec_witness :
  ∃ b : bool, is_topological_sort one_edge_graph [1; 0; 1] = Ok b.
Proof.
  destruct (is_topological_sort_spec one_edge_graph [1; 0; 1]) as (b & Hb & _).
  - apply reachable_build.
  - by exists b.
Defined.

Lemma kahns_algo_terminates_witness :
  ∃ r, kahns_algo 3 (elements (nodes two_cycle_graph)) two_cycle_graph = Some r.
Proof.
  apply (kahns_algo_terminates two_cycle_graph
           (elements (nodes two_cycle_graph)) 3).
  - reflexivity.
  - vm_compute. lia.
Defined.

Lemma kahns_algo_raises_iff_cycle_witness :
  kahns_algo 3 (elements (nodes two_cycle_graph)) two_cycle_graph
    = Some (Raise (Exception cycle_msg)) ↔
  has_cycle two_cycle_graph.
Proof.
  apply (kahns_algo_raises_iff_cycle two_cycle_graph
           (elements (nodes two_cycle_graph)) 3).
  - apply reachable_build.
  - reflexivity.
  - vm_compute. lia.
Defined.

Lemma kahns_algo_topological_order_witness :
  ∃ order,
    kahns_algo 4 (elements (nodes chain_graph)) chain_graph = Some (Ok order) ∧
    is_topological_sort chain_graph order = Ok true.
Proof.
  destruct (kahns_algo_topological_order chain_graph
              (elements (nodes chain_graph)) 4)
    as (order & Hrun & _ & _ & _ & _ & Hvalid).
  - apply reachable_build.
  - apply (is_topological_sort_acyclic chain_graph [0; 1; 2]).
    + apply reachable_build.
    + by_computation.
    + vm_compute. reflexivity.
  - reflexivity.
  - vm_compute. lia.
  - by exists order.
Defined.

Lemma self_loop_raises_witness :
  kahns_algo 2 (elements (nodes self_loop_graph)) self_loop_graph
    = Some (Raise (Exception cycle_msg)).
Proof.
  destruct (self_loop_raises self_loop_graph 5
              (elements (nodes self_loop_graph)) 2) as [_ Hraise].
  - apply reachable_build.
  - destruct Hraise as [Hraise _].
    + by_computation.
    + reflexivity.
    + vm_compute. lia.
    + exact Hraise.
Defined.

(** ** More on the graph class *)

Section graph_more.
Context `{Countable K}.
Implicit Types (g : DirectedGraph K) (u v x : K) (e : K * K)
  (es : list (K * K)).

Lemma get_successors_add_edge_fresh u v g a :
  v ∉ get_successors u g →
  get_successors a (snd (add_edge u v g)) =
  if decide (a = u) then get_successors u g ++ [v] else get_successors a g.
Proof.
  intros Hfresh. rewrite add_edge_fresh by done.
  unfold get_successors. simpl. apply default_lookup_insert.
Qed.

Lemma get_predecessors_add_edge_fresh u v g b :
  v ∉ get_successors u g →
  get_predecessors b (snd (add_edge u v g)) =
  if decide (b = v) then get_predecessors v g ++ [u]
  else get_predecessors b g.
Proof.
  intros Hfresh. rewrite add_edge_fresh by done.
  unfold get_predecessors. simpl. apply default_lookup_insert.
Qed.

(** The adjacency lists are the projections of the edge sequence. *)
Lemma reachable_projections g :
  reachable g →
  (∀ u, get_successors u g = (filter (λ e, e.1 = u) (edges g)).*2) ∧
  (∀ v, get_predecessors v g = (filter (λ e, e.2 = v) (edges g)).*1) ∧
  nodes g = list_to_set (edges g).*1 ∪ list_to_set (edges g).*2.
Proof.
  induction 1 as [|u v g Hreach (IHs & IHp & IHn)].
  - unfold get_successors, get_predecessors. simpl.
    split_and!; [intros; by rewrite lookup_empty..|set_solver].
  - pose proof (reachable_wf g Hreach) as Hwf.
    destruct (decide (v ∈ get_successors u g)) as [Hdup|Hfresh].
    { by rewrite wf_add_edge_duplicate. }
    split_and!.
    + intros a. rewrite get_successors_add_edge_fresh by done.
      rewrite add_edge_fresh by done. simpl.
      rewrite filter_app, fmap_app, filter_cons, filter_nil. simpl.
      case_decide as Ha.
      * subst a. rewrite decide_True by done. by rewrite IHs.
      * rewrite decide_False by done. simpl. by rewrite app_nil_r, IHs.
    + intros b. rewrite get_predecessors_add_edge_fresh by done.
      rewrite add_edge_fresh by done. simpl.
      rewrite filter_app, fmap_app, filter_cons, filter_nil. simpl.
      case_decide as Hb.
      * subst b. rewrite decide_True by done. by rewrite IHp.
      * rewrite decide_False by done. simpl. by rewrite app_nil_r, IHp.
    + rewrite add_edge_fresh by done. simpl.
      rewrite !fmap_app, !list_to_set_app_L, IHn. simpl. set_solver.
Qed.

Lemma build_snoc es e :
  build (es ++ [e]) = snd (add_edge e.1 e.2 (build es)).
Proof. unfold build. by rewrite foldl_app. Qed.

Lemma try_add_edge_edges u v g e :
  reachable g →
  e ∈ edges (try_add_edge u v g) ↔ e ∈ edges g ∨ e = (u, v).
Proof.
  intros Hwf%reachable_wf. unfold try_add_edge.
  destruct (decide (v ∈ get_successors u g)) as [Hdup|Hfresh].
  - rewrite wf_add_edge_duplicate by done.
    apply (wf_succ g Hwf) in Hdup. naive_solver.
  - rewrite add_edge_fresh by done. simpl.
    by rewrite elem_of_app, list_elem_of_singleton.
Qed.

Lemma reachable_try_add_edge u v g :
  reachable g → reachable (try_add_edge u v g).
Proof. intros Hreach. by constructor. Qed.

Lemma build_elem_of es e : e ∈ edges (build es) ↔ e ∈ es.
Proof.
  induction es as [|[u v] es IH] using rev_ind.
  - done.
  - rewrite build_snoc. simpl.
    change (snd (add_edge u v (build es))) with (try_add_edge u v (build es)).
    rewrite try_add_edge_edges by apply reachable_build.
    by rewrite IH, elem_of_app, list_elem_of_singleton.
Qed.

Lemma build_NoDup es : NoDup es → edges (build es) = es.
Proof.
  induction es as [|[u v] es IH] using rev_ind; [done|].
  intros [Hnd [Hnew _]]%NoDup_app. rewrite build_snoc. simpl.
  assert (v ∉ get_successors u (build es)) as Hfresh.
  { rewrite (wf_succ _ (reachable_wf _ (reachable_build es))).
    rewrite build_elem_of. intros Hin. apply (Hnew _ Hin). by left. }
  rewrite add_edge_fresh by done. simpl. by rewrite IH.
Qed.
End graph_more.

(** ** More on the validator and on Kahn's algorithm *)

Section sort_more.
Context `{Countable K}.
Implicit Types (g : DirectedGraph K) (u v x : K) (l ns : list K)
  (st : kahn_state K).

(** When the last occurrences go up along every edge, they go up along
    every path. *)
Lemma last_positions_tc g l u v :
  (∀ a b, (a, b) ∈ edges g →
     ∃ i j, last_position l a i ∧ last_position l b j ∧ (i < j)%nat) →
  tc (edge g) u v →
  ∃ i j, last_position l u i ∧ last_position l v j ∧ (i < j)%nat.
Proof.
  intros Hedges. induction 1 as [u v Huv|u w v Huw _ IH]; [by apply Hedges|].
  destruct (Hedges u w Huw) as (i & j & Hi & Hj & Hij).
  destruct IH as (j' & k & Hj' & Hk & Hjk).
  rewrite (last_position_unique l w j j' Hj Hj') in Hij.
  exists i, k. split_and!; [done..|lia].
Qed.

Lemma accepted_acyclic g l :
  wf g → is_topological_sort g l = Ok true → acyclic g.
Proof.
  intros Hwf Hvalid.
  destruct (is_topological_sort_wf g l Hwf) as (b & Hrun & Hb).
  rewrite Hvalid in Hrun. injection Hrun as <-.
  destruct (proj1 Hb eq_refl) as [_ Hedges]. intros u Hcycle.
  destruct (last_positions_tc g l u u Hedges Hcycle) as (i & j & Hi & Hj & Hij).
  rewrite (last_position_unique l u i j Hi Hj) in Hij. lia.
Qed.

Lemma tc_edge_mono g g' u v :
  (∀ e, e ∈ edges g → e ∈ edges g') → tc (edge g) u v → tc (edge g') u v.
Proof.
  intros Hsub. induction 1 as [u v Huv|u w v Huw _ IH].
  - apply tc_once. by apply Hsub.
  - eapply tc_l; [|done]. by apply Hsub.
Qed.

(** X4: on a graph object, a sequence that [is_topological_sort] accepts,
    with or without repeated nodes, shows that the graph has no cycle: on a
    graph with a cycle the validator returns [False] for every sequence. *)
Theorem is_topological_sort_accepts_only_acyclic g (sequence : list K) :
  reachable g →
  (is_topological_sort g sequence = Ok true → acyclic g) ∧
  (has_cycle g → is_topological_sort g sequence = Ok false).
Proof.
  intros Hreach. pose proof (reachable_wf g Hreach) as Hwf.
  split; [by apply accepted_acyclic|]. intros Hcycle.
  destruct (is_topological_sort_wf g sequence Hwf) as ([] & Hrun & _);
    [|done].
  apply accepted_acyclic in Hrun; [|done].
  by apply acyclic_not_has_cycle in Hrun.
Qed.

(** X5: on a graph object the sorter and the validator agree:
    [topological_sort] returns a sequence exactly when there is a sequence
    that [is_topological_sort] accepts. *)
Theorem topological_sort_succeeds_iff_order_exists g ns (fuel : nat) :
  reachable g →
  ns ≡ₚ elements (nodes g) →
  (size (nodes g) < fuel)%nat →
  (∃ order, topological_sort fuel ns g = Some (Ok order)) ↔
  (∃ sequence, is_topological_sort g sequence = Ok true).
Proof.
  intros Hwf%reachable_wf Hperm Hfuel. unfold topological_sort. split.
  - intros [order Hrun].
    destruct (kahns_algo_acyclic g ns fuel Hwf Hperm Hfuel)
      as (order' & _ & _ & _ & Hvalid); [|by exists order'].
    intros u Hcycle.
    rewrite (kahns_algo_cyclic g ns fuel Hwf Hperm Hfuel) in Hrun; [done|].
    by exists u.
  - intros [l Hacyclic%accepted_acyclic]; [|done].
    destruct (kahns_algo_acyclic g ns fuel Hwf Hperm Hfuel Hacyclic)
      as (order & Hrun & _). by exists order.
Qed.

Lemma decrement_zero_nodes v st st' :
  decrement v st = Ok st' →
  zero_nodes st' = zero_nodes st ∨ zero_nodes st' = zero_nodes st ++ [v].
Proof.
  unfold decrement. destruct (degrees st !! v) as [d|]; [|done].
  intros [= <-]. simpl. case_decide; auto.
Qed.

(** The loop over the successors of [u] pushes, in their order, those all
    of whose predecessors are in the output once [u] is. *)
Lemma inner_loop_pushes g (ts : list K) u (todo : list K) st :
  wf g → u ∉ ts →
  (∀ v, v ∈ todo → (u, v) ∈ edges g ∧ (v ∉ ts) ∧ v ≠ u) → NoDup todo →
  inner_inv g ts u todo st →
  ∃ st', for_in todo decrement st = Ok st' ∧ inner_inv g ts u [] st' ∧
         zero_nodes st' =
         zero_nodes st ++ filter (λ v, pending g (ts ++ [u]) v = []) todo.
Proof.
  intros Hwf Hu. revert st.
  induction todo as [|v todo IH]; intros st Htodo Hnd Hinv; simpl.
  - exists st. by rewrite app_nil_r.
  - apply NoDup_cons in Hnd as [Hv Hnd].
    destruct (Htodo v) as (Huv & Hvts & Hvu); [left|].
    destruct (inner_inv_decrement g ts u v todo st) as (st1 & Hdec & Hinv1);
      [done..|].
    rewrite Hdec, result_bind_Ok.
    destruct (IH st1) as (st' & -> & Hinv' & Hzero); [|done..|].
    { intros w Hw. apply Htodo. by right. }
    exists st'. split; [done|]. split; [done|]. rewrite Hzero.
    assert (v ∉ zero_nodes st) as Hvz.
    { rewrite (ii_zero g ts u (v :: todo) st Hinv).
      intros (_ & _ & Hn & _). apply Hn. by left. }
    assert (v ∈ zero_nodes st1 ↔ pending g (ts ++ [u]) v = []) as Hpushed.
    { rewrite (ii_zero g ts u todo st1 Hinv1). split; [by intros (_ & _ & _ & ?)|].
      intros Hp. split_and!; [|
        rewrite elem_of_app, list_elem_of_singleton; naive_solver|
        done..].
      apply (wf_nodes g Hwf). eauto. }
    destruct (decide (pending g (ts ++ [u]) v = [])) as [Hp|Hp].
    + rewrite filter_cons_True by done.
      destruct (decrement_zero_nodes v st st1 Hdec) as [Heq|Heq].
      * apply Hpushed in Hp. by rewrite Heq in Hp.
      * by rewrite Heq, <-app_assoc.
    + rewrite filter_cons_False by done.
      destruct (decrement_zero_nodes v st st1 Hdec) as [Heq|Heq].
      * by rewrite Heq.
      * destruct Hp. apply Hpushed. rewrite Heq, elem_of_app. right. by left.
Qed.

(** X6: the worklist is a stack.  On a graph object, the [while] loop
    starts with an empty output and with the nodes without predecessor on
    the worklist, in the iteration order of the node set.  Each iteration
    removes the last node [u] of the worklist, appends it to the output
    and puts on the worklist, after the nodes that remain, those
    successors of [u], in their order, all of whose predecessors are now
    in the output; the loop is left when the worklist is empty. *)
Theorem kahns_worklist_is_stack g ns :
  reachable g →
  ns ≡ₚ elements (nodes g) →
  (top_sort (init_degrees g ns) = [] ∧
   zero_nodes (init_degrees g ns) =
     filter (λ u, length (get_predecessors u g) = 0%nat) ns) ∧
  ∀ st, loop_state g ns st →
    (zero_nodes st = [] →
     ∀ fuel : nat, while_loop (S fuel) g st = Some (Ok st)) ∧
    (∀ zs u, zero_nodes st = zs ++ [u] →
     ∃ st',
       (∀ fuel : nat, while_loop (S fuel) g st = while_loop fuel g st') ∧
       loop_state g ns st' ∧
       top_sort st' = top_sort st ++ [u] ∧
       zero_nodes st' =
         zs ++ filter (λ v, pending g (top_sort st ++ [u]) v = [])
                 (get_successors u g)).
Proof.
  intros Hwf%reachable_wf Hperm.
  split; [split; [apply init_top_sort|apply init_zero_nodes]|].
  intros st Hst. split.
  - intros Hz fuel. simpl. apply pop_None in Hz. by rewrite Hz.
  - intros zs u Hzs.
    pose proof (kahn_inv_loop_state g ns st Hwf Hperm Hst) as Hinv.
    destruct (popped_node g st zs u Hwf Hinv Hzs)
      as (Hnode & Hts & Huz & Hpreds & Hsuccs).
    destruct (inner_loop_pushes g (top_sort st) u (get_successors u g)
                {| degrees := degrees st; zero_nodes := zs;
                   top_sort := top_sort st ++ [u] |})
      as (st' & Hrun & Hinv' & Hzero).
    { done. }
    { done. }
    { intros v Hv%(wf_succ g Hwf). destruct (Hsuccs v Hv) as (? & _ & ?).
      done. }
    { by apply Hwf. }
    { by apply inner_inv_start. }
    apply pop_Some in Hzs.
    assert (while_body g u zs st = Ok st') as Hbody by done.
    exists st'. split_and!.
    + intros fuel. simpl. by rewrite Hzs, Hbody.
    + by eapply loop_state_step.
    + apply (ii_top_sort g _ u [] st' Hinv').
    + done.
Qed.

(** X7: edges are never removed, so a cycle stays: once a graph object has
    a cycle, it has one after any further [add_edge] call, returning or
    raising, and [topological_sort] goes on raising the cycle
    exception. *)
Theorem add_edge_keeps_cycle g u v :
  reachable g →
  has_cycle g →
  has_cycle (snd (add_edge u v g)) ∧
  ∀ ns (fuel : nat),
    ns ≡ₚ elements (nodes (snd (add_edge u v g))) →
    (size (nodes (snd (add_edge u v g))) < fuel)%nat →
    topological_sort fuel ns (snd (add_edge u v g))
      = Some (Raise (Exception cycle_msg)).
Proof.
  intros Hreach [x Hcycle].
  assert (has_cycle (snd (add_edge u v g))) as Hcycle'.
  { exists x. eapply tc_edge_mono; [|done]. intros e He.
    apply (try_add_edge_edges u v g e Hreach). by left. }
  split; [done|]. intros ns fuel Hperm Hfuel.
  apply kahns_algo_cyclic; [|done..].
  by apply reachable_wf, reachable_add_edge.
Qed.

(** X8: the reverse of an edge is accepted: on a graph object with the
    edge [(u, v)] and without [(v, u)], [add_edge(v, u)] returns normally,
    and the graph then has the cycle [u → v → u], so that
    [topological_sort] raises the cycle exception. *)
Theorem add_reverse_edge_makes_cycle g u v :
  reachable g →
  (u, v) ∈ edges g →
  (v, u) ∉ edges g →
  fst (add_edge v u g) = Ok () ∧
  tc (edge (snd (add_edge v u g))) u u ∧
  ∀ ns (fuel : nat),
    ns ≡ₚ elements (nodes (snd (add_edge v u g))) →
    (size (nodes (snd (add_edge v u g))) < fuel)%nat →
    topological_sort fuel ns (snd (add_edge v u g))
      = Some (Raise (Exception cycle_msg)).
Proof.
  intros Hreach Huv Hvu. pose proof (reachable_wf g Hreach) as Hwf.
  assert (u ∉ get_successors v g) as Hfresh by (by rewrite (wf_succ g Hwf)).
  assert (tc (edge (snd (add_edge v u g))) u u) as Hcycle.
  { apply tc_l with v; [|apply tc_once];
      apply (try_add_edge_edges v u g _ Hreach); auto. }
  split_and!; [by rewrite add_edge_fresh|done|].
  intros ns fuel Hperm Hfuel. apply kahns_algo_cyclic; [|done..|by exists u].
  by apply reachable_wf, reachable_add_edge.
Qed.
End sort_more.

(** ** More on [random_dag] and the main loop *)

Lemma for_in_app {A S} (l1 l2 : list A) (body : A → S → result S) (s : S) :
  for_in (l1 ++ l2) body s = for_in l1 body s ≫= for_in l2 body.
Proof.
  revert s. induction l1 as [|a l1 IH]; intros s; simpl; [done|].
  destruct (body a s) as [s1|e]; [|done]. rewrite !result_bind_Ok. apply IH.
Qed.

Lemma for_in_fmap {A B S} (f : A → B) (l : list A) (body : B → S → result S)
    (s : S) :
  for_in (f <$> l) body s = for_in l (λ a, body (f a)) s.
Proof.
  revert s. induction l as [|a l IH]; intros s; simpl; [done|].
  destruct (body (f a) s) as [s1|e]; [|done]. rewrite !result_bind_Ok. apply IH.
Qed.

(** Two nested loops are one loop over the pairs. *)
Lemma for_in_nested {A B S} (us : list A) (f : A → list B)
    (body : A → B → S → result S) (s : S) :
  for_in us (λ u, for_in (f u) (body u)) s =
  for_in (u ← us; (λ v, (u, v)) <$> f u) (λ p, body p.1 p.2) s.
Proof.
  revert s. induction us as [|u us IH]; intros s; [done|].
  rewrite bind_cons, for_in_app, for_in_fmap. simpl.
  destruct (for_in (f u) (body u) s) as [s1|e]; [|done].
  rewrite !result_bind_Ok. apply IH.
Qed.

Lemma elem_of_visited_pairs n u v :
  (u, v) ∈ visited_pairs n ↔ 0 ≤ u ∧ u < v ∧ v < n.
Proof.
  unfold visited_pairs. rewrite list_elem_of_bind. split.
  - intros (u' & Hin & Hu'). apply list_elem_of_fmap in Hin as (v' & [= -> ->] & Hv').
    apply elem_of_range in Hu', Hv'. lia.
  - intros (Hu & Huv & Hv). exists u. split; [|apply elem_of_range; lia].
    apply list_elem_of_fmap. exists v. split; [done|]. apply elem_of_range. lia.
Qed.

Lemma NoDup_visited_pairs n : NoDup (visited_pairs n).
Proof.
  unfold visited_pairs. apply NoDup_bind; [| |apply NoDup_range].
  - intros u1 u2 p _ _ (v1 & -> & _)%list_elem_of_fmap
      (v2 & [= -> _] & _)%list_elem_of_fmap. done.
  - intros u _. apply NoDup_fmap_2; [|apply NoDup_range].
    intros v1 v2 [= ->]. done.
Qed.

Section random_more.
Context (float : Type) (float_gt : float → float → bool) (draws : nat → float).
Implicit Types (n u v : Z) (thr : float) (ps : list (Z * Z)) (k : nat)
  (dag : DirectedGraph Z).

Lemma taken_pairs_elem_of thr k ps p :
  p ∈ taken_pairs float_gt draws thr k ps → p ∈ ps.
Proof.
  revert k. induction ps as [|q ps IH]; intros k; simpl; [done|].
  destruct (float_gt (draws k) thr).
  - intros [->|Hin]%elem_of_cons; [by left|]. right. by eapply IH.
  - intros Hin. right. by eapply IH.
Qed.

Lemma taken_pairs_NoDup thr k ps :
  NoDup ps → NoDup (taken_pairs float_gt draws thr k ps).
Proof.
  intros Hnd. revert k. induction Hnd as [|q ps Hq Hnd IH]; intros k; simpl.
  - constructor.
  - destruct (float_gt (draws k) thr); [|apply IH].
    constructor; [|apply IH]. by intros ?%taken_pairs_elem_of.
Qed.

(** The loop over the pairs adds exactly the pairs whose draw exceeds the
    threshold, and no [add_edge] call raises. *)
Lemma pairs_loop_exact thr ps k dag :
  reachable dag → NoDup ps → (∀ p, p ∈ ps → p ∉ edges dag) →
  for_in ps (λ p, maybe_add_edge float float_gt draws thr p.1 p.2) (k, dag) =
  Ok ((length ps + k)%nat,
      foldl (λ g e, try_add_edge e.1 e.2 g) dag
        (taken_pairs float_gt draws thr k ps)).
Proof.
  revert k dag. induction ps as [|[u v] ps IH]; intros k dag Hreach Hnd Hfresh;
    [done|].
  apply NoDup_cons in Hnd as [Hp Hnd]. simpl.
  destruct (float_gt (draws k) thr).
  - assert ((u, v) ∉ edges dag) as Huv by (apply Hfresh; left).
    rewrite <-(wf_succ dag (reachable_wf dag Hreach)) in Huv.
    simpl. unfold try_add_edge at 2. rewrite add_edge_fresh by done.
    rewrite result_bind_Ok.
    pose proof (reachable_add_edge u v dag Hreach) as Hreach'.
    rewrite add_edge_fresh in Hreach' by done. simpl in *.
    rewrite IH; [do 2 f_equal; lia|done..|].
    intros p Hin. simpl. rewrite elem_of_app, list_elem_of_singleton.
    intros [Hold| ->]; [|done]. revert Hold. apply Hfresh. by right.
  - rewrite result_bind_Ok.
    rewrite IH; [do 2 f_equal; lia|done..|].
    intros p Hin. apply Hfresh. by right.
Qed.

Lemma random_dag_exact n thr :
  random_dag float float_gt draws n thr =
  Ok (build (taken_pairs float_gt draws thr 0 (visited_pairs n))).
Proof.
  unfold random_dag.
  rewrite (for_in_nested (range 0 n) (λ u, range (u + 1) n)
             (maybe_add_edge float float_gt draws thr)).
  fold (visited_pairs n). rewrite pairs_loop_exact.
  - done.
  - constructor.
  - apply NoDup_visited_pairs.
  - intros p _ ?%elem_of_nil. done.
Qed.

(** X9: [random_dag] takes the pair [(u, v)] exactly when the value
    [random()] returns for it exceeds the threshold, the pairs being
    visited in lexicographic order and each using one draw: the graph
    returned is the one obtained by adding the taken pairs in that order,
    its edge sequence is the list of taken pairs, and no call raises. *)
Theorem random_dag_takes_drawn_pairs n thr :
  random_dag float float_gt draws n thr =
    Ok (build (taken_pairs float_gt draws thr 0 (visited_pairs n))) ∧
  get_edges (build (taken_pairs float_gt draws thr 0 (visited_pairs n))) =
    taken_pairs float_gt draws thr 0 (visited_pairs n) ∧
  (∀ u v, (u, v) ∈ visited_pairs n ↔ 0 ≤ u ∧ u < v ∧ v < n) ∧
  NoDup (visited_pairs n).
Proof.
  split_and!.
  - apply random_dag_exact.
  - apply build_NoDup, taken_pairs_NoDup, NoDup_visited_pairs.
  - apply elem_of_visited_pairs.
  - apply NoDup_visited_pairs.
Qed.

Lemma random_dag_nodes n thr dag x :
  random_dag float float_gt draws n thr = Ok dag →
  x ∈ nodes dag → 0 ≤ x < n.
Proof.
  intros Hrun Hx.
  destruct (random_dag_ok float float_gt draws n thr)
    as (dag' & Hrun' & Hreach & Hedges).
  rewrite Hrun in Hrun'. injection Hrun' as <-.
  apply (wf_nodes dag (reachable_wf dag Hreach)) in Hx
    as [y [Hxy%Hedges|Hyx%Hedges]]; lia.
Qed.

Lemma random_dag_size n thr dag :
  random_dag float float_gt draws n thr = Ok dag →
  (size (nodes dag) ≤ Z.to_nat n)%nat.
Proof.
  intros Hrun.
  transitivity (size (list_to_set (C := gset Z) (range 0 n))).
  - apply subseteq_size. intros x Hx%(random_dag_nodes n thr dag); [|done].
    apply elem_of_list_to_set, elem_of_range. lia.
  - rewrite size_list_to_set by apply NoDup_range.
    unfold range. rewrite length_seqZ. lia.
Qed.

(** X10: the graph [random_dag] returns has no node outside [0 .. N-1] and
    at most [N] nodes, a label being a node only if some edge was taken at
    it; for [N ≤ 1], negative values included, it is the empty graph. *)
Theorem random_dag_node_set n thr :
  ∃ dag,
    random_dag float float_gt draws n thr = Ok dag ∧
    (∀ x, x ∈ get_nodes dag ↔
          ∃ y, (x, y) ∈ get_edges dag ∨ (y, x) ∈ get_edges dag) ∧
    (∀ x, x ∈ get_nodes dag → 0 ≤ x < n) ∧
    (size (get_nodes dag) ≤ Z.to_nat n)%nat ∧
    (n ≤ 1 → dag = empty_graph).
Proof.
  destruct (random_dag_ok float float_gt draws n thr)
    as (dag & Hrun & Hreach & Hedges).
  exists dag. split_and!.
  - done.
  - apply (wf_nodes dag (reachable_wf dag Hreach)).
  - intros x. by apply random_dag_nodes with thr.
  - by apply random_dag_size with thr.
  - intros Hn. rewrite random_dag_exact in Hrun. injection Hrun as <-.
    assert (visited_pairs n = []) as ->; [|done].
    apply elem_of_nil_inv. intros [u v] Hin%elem_of_visited_pairs. lia.
Qed.

(** X11: the first assertion of the main loop never fails: whatever the
    node count, the threshold and the draws, [topological_sort] returns a
    sequence on the graph [random_dag] returns, and [is_topological_sort]
    accepts it. *)
Theorem main_loop_sort_is_validated n thr :
  ∃ dag,
    random_dag float float_gt draws n thr = Ok dag ∧
    ∀ (ns : list Z) (fuel : nat),
      ns ≡ₚ elements (nodes dag) →
      (Z.to_nat n < fuel)%nat →
      ∃ top_sort,
        topological_sort fuel ns dag = Some (Ok top_sort) ∧
        is_topological_sort dag top_sort = Ok true.
Proof.
  destruct (random_dag_ok float float_gt draws n thr)
    as (dag & Hrun & Hreach & Hedges).
  exists dag. split; [done|]. intros ns fuel Hperm Hfuel.
  destruct (kahns_algo_acyclic dag ns fuel)
    as (order & Hsort & _ & _ & Hvalid).
  - by apply reachable_wf.
  - done.
  - pose proof (random_dag_size n thr dag Hrun). lia.
  - apply (respects_edges_acyclic dag (range 0 n)); [apply NoDup_range|].
    by apply increasing_edges_respected.
  - by exists order.
Qed.
End random_more.

Lemma path_loop_edges (idx : list Z) (g : DirectedGraph Z) :
  reachable g →
  reachable (foldl (λ g i, try_add_edge i (i + 1) g) g idx) ∧
  ∀ e, e ∈ edges (foldl (λ g i, try_add_edge i (i + 1) g) g idx) ↔
       e ∈ edges g ∨ ∃ i, i ∈ idx ∧ e = (i, i + 1).
Proof.
  revert g. induction idx as [|i idx IH]; intros g Hreach; simpl.
  - split; [done|]. intros e. split; [auto|].
    intros [?|(i & ?%elem_of_nil & _)]; done.
  - destruct (IH (try_add_edge i (i + 1) g)) as [Hreach' Hedges].
    { by apply reachable_try_add_edge. }
    split; [done|]. intros e. rewrite Hedges, try_add_edge_edges by done.
    setoid_rewrite elem_of_cons. naive_solver.
Qed.

Lemma inject_cycle_edges (start end_ : Z) (g : DirectedGraph Z) e :
  reachable g →
  e ∈ edges (inject_cycle start end_ g) ↔
  e ∈ edges g ∨ (∃ i, start ≤ i < end_ ∧ e = (i, i + 1)) ∨ e = (end_, start).
Proof.
  intros Hreach. unfold inject_cycle.
  destruct (path_loop_edges (range start end_) g Hreach) as [Hreach' Hedges].
  rewrite try_add_edge_edges, Hedges by done.
  setoid_rewrite elem_of_range. naive_solver.
Qed.

Lemma reachable_inject_cycle (start end_ : Z) (g : DirectedGraph Z) :
  reachable g → reachable (inject_cycle start end_ g).
Proof.
  intros Hreach. apply reachable_try_add_edge.
  by apply path_loop_edges.
Qed.

Lemma inject_cycle_path (start end_ : Z) (g : DirectedGraph Z) (k : nat) :
  reachable g → start + 1 + Z.of_nat k ≤ end_ →
  tc (edge (inject_cycle start end_ g)) start (start + 1 + Z.of_nat k).
Proof.
  intros Hreach. induction k as [|k IH]; intros Hk.
  - apply tc_once. apply inject_cycle_edges; [done|]. right. left.
    exists start. split; [lia|]. f_equal. lia.
  - apply tc_r with (start + 1 + Z.of_nat k); [apply IH; lia|].
    apply inject_cycle_edges; [done|]. right. left.
    exists (start + 1 + Z.of_nat k). split; [lia|]. f_equal. lia.
Qed.

(** X12: the second check of the main loop: on a graph object and for
    [start < end], after the calls [add_edge(i, i+1)] for [i] in
    [range(start, end)] and [add_edge(end, start)], their exceptions
    ignored, the graph has the edges it had, the path from [start] to
    [end] and the edge back, hence a cycle through [start]; so
    [topological_sort] raises the cycle exception and the [assert False]
    after it is not reached. *)
Theorem inject_cycle_makes_sort_raise (start end_ : Z) (g : DirectedGraph Z) :
  reachable g →
  start < end_ →
  (∀ e, e ∈ get_edges (inject_cycle start end_ g) ↔
        e ∈ get_edges g ∨ (∃ i, start ≤ i < end_ ∧ e = (i, i + 1)) ∨
        e = (end_, start)) ∧
  tc (edge (inject_cycle start end_ g)) start start ∧
  ∀ (ns : list Z) (fuel : nat),
    ns ≡ₚ elements (nodes (inject_cycle start end_ g)) →
    (size (nodes (inject_cycle start end_ g)) < fuel)%nat →
    topological_sort fuel ns (inject_cycle start end_ g)
      = Some (Raise (Exception cycle_msg)).
Proof.
  intros Hreach Hlt.
  assert (tc (edge (inject_cycle start end_ g)) start start) as Hcycle.
  { apply tc_r with end_.
    - replace end_ with (start + 1 + Z.of_nat (Z.to_nat (end_ - start - 1)))
        at 2 by lia.
      apply inject_cycle_path; [done|lia].
    - apply inject_cycle_edges; auto. }
  split_and!.
  - intros e. by apply inject_cycle_edges.
  - done.
  - intros ns fuel Hperm Hfuel. apply kahns_algo_cyclic; [|done..|by exists start].
    by apply reachable_wf, reachable_inject_cycle.
Qed.

Section graph_more_properties.
Context `{Countable K}.
Implicit Types (g : DirectedGraph K) (u v x : K) (e : K * K)
  (es : list (K * K)).

(** X1: on a graph object, [add_edge(u, v)] for an edge that is not
    present returns normally; it appends [(u, v)] to the edge sequence,
    [v] to the successors of [u] and [u] to the predecessors of [v], adds
    [u] and [v] to the node set and leaves the successors and predecessors
    of every other node as they were.  A call raises exactly when the edge
    is present. *)
Theorem add_edge_appends g u v :
  reachable g →
  (u, v) ∉ edges g →
  fst (add_edge u v g) = Ok () ∧
  get_edges (snd (add_edge u v g)) = get_edges g ++ [(u, v)] ∧
  get_nodes (snd (add_edge u v g)) = {[v]} ∪ ({[u]} ∪ get_nodes g) ∧
  (∀ a, get_successors a (snd (add_edge u v g)) =
        if decide (a = u) then get_successors u g ++ [v]
        else get_successors a g) ∧
  (∀ b, get_predecessors b (snd (add_edge u v g)) =
        if decide (b = v) then get_predecessors v g ++ [u]
        else get_predecessors b g) ∧
  (∀ a b, fst (add_edge a b g) = Ok () ↔ (a, b) ∉ edges g).
Proof.
  intros Hwf%reachable_wf Huv.
  assert (v ∉ get_successors u g) as Hfresh by (by rewrite (wf_succ g Hwf)).
  split_and!.
  - by rewrite add_edge_fresh.
  - by rewrite add_edge_fresh.
  - by rewrite add_edge_fresh.
  - intros a. by apply get_successors_add_edge_fresh.
  - intros b. by apply get_predecessors_add_edge_fresh.
  - intros a b. rewrite <-(wf_succ g Hwf).
    destruct (add_edge_cases a b g) as [[Hin ->]|[Hnot ->]]; naive_solver.
Qed.

(** X2: on a graph object the adjacency lists are the projections of the
    edge sequence, in insertion order: [get_successors(u)] lists the
    targets of the edges leaving [u], [get_predecessors(v)] the sources of
    the edges entering [v]; the node set is the set of the endpoints; and
    no edge occurs twice in [get_edges()]. *)
Theorem adjacency_lists_follow_edges g :
  reachable g →
  (∀ u, get_successors u g = (filter (λ e, e.1 = u) (get_edges g)).*2) ∧
  (∀ v, get_predecessors v g = (filter (λ e, e.2 = v) (get_edges g)).*1) ∧
  get_nodes g = list_to_set (get_edges g).*1 ∪ list_to_set (get_edges g).*2 ∧
  NoDup (get_edges g).
Proof.
  intros Hreach.
  destruct (reachable_projections g Hreach) as (Hs & Hp & Hn).
  split_and!; [done..|]. by apply wf_edges_nodup, reachable_wf.
Qed.

(** X3: a series of [add_edge] calls on a new graph, the duplicate-edge
    exceptions ignored, gives a graph whose edges are the pairs of the
    series, none twice; when the series repeats no pair, no call raises
    and [get_edges()] returns the series itself. *)
Theorem build_edges es :
  (∀ e, e ∈ get_edges (build es) ↔ e ∈ es) ∧
  NoDup (get_edges (build es)) ∧
  (NoDup es → get_edges (build es) = es).
Proof.
  split_and!.
  - intros e. apply build_elem_of.
  - apply wf_edges_nodup, reachable_wf, reachable_build.
  - apply build_NoDup.
Qed.
End graph_more_properties.

Section validator_more.
Context `{Countable K}.
Implicit Types (g : DirectedGraph K) (u v x : K) (l : list K).

Lemma size_list_to_set_le l :
  (size (list_to_set (C := gset K) l) ≤ length l)%nat.
Proof.
  induction l as [|x l IH].
  - by rewrite list_to_set_nil, size_empty.
  - rewrite list_to_set_cons. simpl.
    rewrite size_union_alt, size_singleton.
    assert (list_to_set l ∖ {[x]} ⊆ list_to_set (C := gset K) l) as Hsub
      by set_solver.
    apply subseteq_size in Hsub. lia.
Qed.

Lemma size_list_to_set_NoDup l :
  size (list_to_set (C := gset K) l) = length l → NoDup l.
Proof.
  induction l as [|x l IH]; [constructor|].
  rewrite list_to_set_cons. simpl. intros Hsize.
  pose proof (size_list_to_set_le l) as Hle.
  destruct (decide (x ∈ l)) as [Hin|Hnot].
  - assert ({[x]} ∪ list_to_set l = list_to_set (C := gset K) l) as Heq
      by set_solver.
    rewrite Heq in Hsize. lia.
  - constructor; [done|]. apply IH.
    rewrite size_union, size_singleton in Hsize by set_solver. lia.
Qed.

(** X13: on a graph object, a sequence that [is_topological_sort] accepts
    has at least as many elements as the graph has nodes; when it has
    exactly as many, it repeats no node, is a permutation of the node set
    and has [u] before [v] for every edge [(u, v)]. *)
Theorem accepted_sequence_of_node_count g (sequence : list K) :
  reachable g →
  is_topological_sort g sequence = Ok true →
  (size (get_nodes g) ≤ length sequence)%nat ∧
  (length sequence = size (get_nodes g) →
   NoDup sequence ∧ sequence ≡ₚ elements (get_nodes g) ∧
   respects_edges g sequence).
Proof.
  intros Hwf%reachable_wf Hvalid.
  destruct (is_topological_sort_wf g sequence Hwf) as (b & Hrun & Hb).
  rewrite Hvalid in Hrun. injection Hrun as <-.
  destruct (proj1 Hb eq_refl) as [Hset _]. unfold get_nodes.
  split; [rewrite <-Hset; apply size_list_to_set_le|]. intros Hlen.
  assert (NoDup sequence) as Hnd.
  { apply size_list_to_set_NoDup. by rewrite Hset. }
  split_and!; [done| |].
  - apply NoDup_Permutation; [done|apply NoDup_elements|]. intros x.
    by rewrite elem_of_elements, <-Hset, elem_of_list_to_set.
  - by apply (is_topological_sort_nodup g sequence Hwf Hnd).
Qed.
End validator_more.

(** ** Instances of the properties above *)

Lemma add_edge_appends_witness :
  get_edges (snd (add_edge 1 2 one_edge_graph)) = [(0, 1); (1, 2)].
Proof.
  destruct (add_edge_appends one_edge_graph 1 2) as (_ & Hedges & _).
  - apply reachable_build.
  - by_computation.
  - exact Hedges.
Defined.

Lemma adjacency_lists_follow_edges_witness :
  NoDup (get_edges chain_graph).
Proof.
  apply (adjacency_lists_follow_edges chain_graph).
  apply reachable_build.
Defined.

Lemma is_topological_sort_accepts_only_acyclic_witness :
  acyclic chain_graph.
Proof.
  destruct (is_topological_sort_accepts_only_acyclic chain_graph [0; 1; 2])
    as [Hacyclic _].
  - apply reachable_build.
  - apply Hacyclic. vm_compute. reflexivity.
Defined.

Lemma topological_sort_succeeds_iff_order_exists_witness :
  (∃ order,
     topological_sort 4 (elements (nodes chain_graph)) chain_graph
       = Some (Ok order)) ↔
  (∃ sequence, is_topological_sort chain_graph sequence = Ok true).
Proof.
  apply (topological_sort_succeeds_iff_order_exists chain_graph
           (elements (nodes chain_graph)) 4).
  - apply reachable_build.
  - reflexivity.
  - vm_compute. lia.
Defined.

Lemma kahns_worklist_is_stack_witness :
  ∃ st',
    (∀ fuel : nat,
       while_loop (S fuel) two_chains_graph
         (init_degrees two_chains_graph (elements (nodes two_chains_graph)))
       = while_loop fuel two_chains_graph st') ∧
    top_sort st' = [0] ∧
    zero_nodes st' =
      [1] ++ filter (λ v, pending two_chains_graph [0] v = [])
               (get_successors 0 two_chains_graph).
Proof.
  destruct (kahns_worklist_is_stack two_chains_graph
              (elements (nodes two_chains_graph))) as [_ Hstep].
  - apply reachable_build.
  - reflexivity.
  - destruct (Hstep _ (loop_state_init _ _)) as [_ Hpop].
    destruct (Hpop [1] 0) as (st' & Hrun & _ & Htop & Hzero).
    + vm_compute. reflexivity.
    + exists st'. split; [exact Hrun|]. split; [exact Htop|exact Hzero].
Defined.

Lemma add_edge_keeps_cycle_witness :
  has_cycle (snd (add_edge 1 2 two_cycle_graph)).
Proof.
  apply (add_edge_keeps_cycle two_cycle_graph 1 2).
  - apply reachable_build.
  - exists 0. apply tc_l with 1; [|apply tc_once]; unfold edge; by_computation.
Defined.

Lemma add_reverse_edge_makes_cycle_witness :
  fst (add_edge 1 0 one_edge_graph) = Ok ().
Proof.
  apply (add_reverse_edge_makes_cycle one_edge_graph 0 1).
  - apply reachable_build.
  - by_computation.
  - by_computation.
Defined.

Lemma inject_cycle_makes_sort_raise_witness :
  tc (edge (inject_cycle 0 2 chain_graph)) 0 0.
Proof.
  apply (inject_cycle_makes_sort_raise 0 2 chain_graph).
  - apply reachable_build.
  - lia.
Defined.

Lemma accepted_sequence_of_node_count_witness :
  (size (get_nodes chain_graph) ≤ length [0; 1; 2])%nat.
Proof.
  apply (accepted_sequence_of_node_count chain_graph [0; 1; 2]).
  - apply reachable_build.
  - vm_compute. reflexivity.
Defined.
